(** * Minesweeper-AI: the knowledge base of [minesweeper.py]

    A shallow embedding of the classes [Sentence] and [MinesweeperAI] of
    [src/minesweeper.py], and the properties of its inference loop
    [add_knowledge].

    Python sets of cells are [gset Cell] (extensional equality, as
    [set.__eq__]); Python integers are [Z]; the lists [self.knowledge] and
    [new_sentences] are Rocq lists in Python order (index 0 first), so that
    [list.append] adds at the end and [list.pop()] takes from the end. *)

From stdpp Require Import gmap list sets.
From Stdlib Require Import ZArith Lia.

Open Scope Z_scope.
Set Warnings "-clear-no-such-hyp,-level-tolerance".

(** A cell is the tuple [(i, j)] of Python integers. *)
Abbreviation Cell := (Z * Z)%type (only parsing).

(** ** class Sentence *)

Record Sentence : Type := mkSentence { cells : gset Cell; count : Z }.

(** [Sentence.__eq__]: same cells and same count.  On the record this is
    Leibniz equality, which is decidable. *)
#[global] Instance Sentence_eq_dec : EqDecision Sentence.
Proof. solve_decision. Defined.

Module Sent.

(** [known_mines]: [self.cells] when [len(self.cells) == self.count],
    otherwise the method falls off its end and returns [None]. *)
Definition known_mines (s : Sentence) : option (gset Cell) :=
  if decide (Z.of_nat (size (cells s)) = count s) then Some (cells s) else None.

(** [known_safes]: [self.cells] when [self.count == 0], otherwise [None]. *)
Definition known_safes (s : Sentence) : option (gset Cell) :=
  if decide (count s = 0) then Some (cells s) else None.

(** [mark_mine]: when the cell is in the sentence, remove it and decrease
    the count. *)
Definition mark_mine (c : Cell) (s : Sentence) : Sentence :=
  if decide (c ∈ cells s)
  then mkSentence (cells s ∖ {[c]}) (count s - 1)
  else s.

(** [mark_safe]: when the cell is in the sentence, remove it. *)
Definition mark_safe (c : Cell) (s : Sentence) : Sentence :=
  if decide (c ∈ cells s)
  then mkSentence (cells s ∖ {[c]}) (count s)
  else s.

End Sent.

(** ** class MinesweeperAI *)

Record MinesweeperAI : Type := mkAI {
  height : Z;
  width : Z;
  moves_made : gset Cell;
  mines : gset Cell;
  safes : gset Cell;
  knowledge : list Sentence
}.

(** [MinesweeperAI.__init__] *)
Definition init (h w : Z) : MinesweeperAI := mkAI h w ∅ ∅ ∅ [].

Definition set_knowledge (K : list Sentence) (ai : MinesweeperAI) : MinesweeperAI :=
  mkAI (height ai) (width ai) (moves_made ai) (mines ai) (safes ai) K.

(** [set.add] guarded by [if cell not in ...], as the source writes it. *)
Definition add_if_absent (c : Cell) (X : gset Cell) : gset Cell :=
  if decide (c ∈ X) then X else X ∪ {[c]}.

(** [MinesweeperAI.mark_mine]: record the mine, then call
    [Sentence.mark_mine] on every sentence of [self.knowledge]. *)
Definition mark_mine (c : Cell) (ai : MinesweeperAI) : MinesweeperAI :=
  mkAI (height ai) (width ai) (moves_made ai)
       (add_if_absent c (mines ai)) (safes ai)
       (Sent.mark_mine c <$> knowledge ai).

(** [MinesweeperAI.mark_safe] *)
Definition mark_safe (c : Cell) (ai : MinesweeperAI) : MinesweeperAI :=
  mkAI (height ai) (width ai) (moves_made ai)
       (mines ai) (add_if_absent c (safes ai))
       (Sent.mark_safe c <$> knowledge ai).

(** ** add_knowledge *)

(** *** The seeded sentence (lines 229-257) *)

(** [range(-1, 2)] *)
Definition offsets : list Z := [-1; 0; 1].

(** The pairs [(i, j)] in the order of the two nested loops. *)
Definition offset_pairs : list (Z * Z) :=
  i ← offsets; j ← offsets; [(i, j)].

Definition in_bounds (ai : MinesweeperAI) (c : Cell) : Prop :=
  (c.1 <= height ai - 1 ∧ c.1 >= 0) ∧ (c.2 <= width ai - 1 ∧ c.2 >= 0).

#[global] Instance in_bounds_dec ai c : Decision (in_bounds ai c).
Proof. unfold in_bounds. apply _. Defined.

(** One turn of the body of the nested loops: the state is
    [(temp_set, count_adjuster)]. *)
Definition seed_step (ai : MinesweeperAI) (cell : Cell)
    (st : gset Cell * Z) (d : Z * Z) : gset Cell * Z :=
  let new_cell : Cell := (cell.1 + d.1, cell.2 + d.2) in
  if decide (in_bounds ai new_cell) then
    if decide (new_cell ∉ safes ai) then
      if decide (new_cell ∉ mines ai)
      then (st.1 ∪ {[new_cell]}, st.2)
      else (st.1, st.2 + 1)
    else st
  else st.

(** [Sentence(temp_set, count - count_adjuster)], computed in the state
    reached after [self.mark_safe(cell)]. *)
Definition seed_sentence (ai : MinesweeperAI) (cell : Cell) (cnt : Z) : Sentence :=
  let r := foldl (seed_step ai cell) (∅, 0) offset_pairs in
  mkSentence r.1 (cnt - r.2).

(** *** generate_new_knowledge (lines 208-226) *)

(** [if temp not in new_sentences and temp not in self.knowledge and
    temp.cells != set(): new_sentences.append(temp)] *)
Definition try_append (K : list Sentence) (temp : Sentence)
    (ns : list Sentence) : list Sentence :=
  if decide ((temp ∉ ns) ∧ (temp ∉ K) ∧ cells temp ≠ ∅) then ns ++ [temp] else ns.

(** The body of the inner [for s2] loop. *)
Definition gen_pair (K : list Sentence) (s1 s2 : Sentence)
    (ns : list Sentence) : list Sentence :=
  if decide (s1 ≠ s2 ∧ count s1 ≠ 0 ∧ count s2 ≠ 0) then
    let ns1 :=
      if decide (cells s2 ⊆ cells s1)
      then try_append K (mkSentence (cells s1 ∖ cells s2) (count s1 - count s2)) ns
      else ns in
    if decide (cells s1 ⊆ cells s2)
    then try_append K (mkSentence (cells s2 ∖ cells s1) (count s2 - count s1)) ns1
    else ns1
  else ns.

(** Both loops run over [tuple(self.knowledge)], which the function does
    not change. *)
Definition generate_new_knowledge (K : list Sentence)
    (ns : list Sentence) : list Sentence :=
  foldl (λ ns1 s1, foldl (λ ns2 s2, gen_pair K s1 s2 ns2) ns1 K) ns K.

(** *** The marking pass (lines 285-295) *)

(** [for c in tuple(X): self.mark_mine(c)] *)
Definition mark_mines (X : gset Cell) (ai : MinesweeperAI) : MinesweeperAI :=
  foldl (λ a c, mark_mine c a) ai (elements X).

Definition mark_safes (X : gset Cell) (ai : MinesweeperAI) : MinesweeperAI :=
  foldl (λ a c, mark_safe c a) ai (elements X).

(** [if mines:] is false for [None] and for the empty set. *)
Definition truthy (o : option (gset Cell)) : option (gset Cell) :=
  match o with
  | Some X => if decide (X = ∅) then None else Some X
  | None => None
  end.

(** The body of [for s in self.knowledge], for the sentence at index [i].
    The sentence object is read again for [known_safes], after the calls
    of [mark_mine] have changed it in place. *)
Definition mark_at (ai : MinesweeperAI) (i : nat) : MinesweeperAI :=
  match knowledge ai !! i with
  | None => ai
  | Some s =>
      let ai1 :=
        match truthy (Sent.known_mines s) with
        | Some X => mark_mines X ai
        | None => ai
        end in
      match knowledge ai1 !! i with
      | None => ai1
      | Some s' =>
          match truthy (Sent.known_safes s') with
          | Some X => mark_safes X ai1
          | None => ai1
          end
      end
  end.

(** The list keeps its length during the pass, only the sentences change. *)
Definition marking_pass (ai : MinesweeperAI) : MinesweeperAI :=
  foldl mark_at ai (seq 0 (length (knowledge ai))).

(** *** Pruning (lines 297-313) *)

(** [list.remove(x)]: drop the first element equal to [x]; [ValueError]
    ([None]) when there is none. *)
Fixpoint list_remove (x : Sentence) (l : list Sentence) : option (list Sentence) :=
  match l with
  | [] => None
  | y :: l' => if decide (x = y) then Some l' else (y ::.) <$> list_remove x l'
  end.

(** [list.count(x)] *)
Definition list_count (x : Sentence) (l : list Sentence) : nat :=
  length (filter (λ y, y = x) l).

(** [for s in tuple(l): if s.cells == set(): l.remove(s)] *)
Definition remove_empty (l : list Sentence) : option (list Sentence) :=
  foldl (λ acc s, cur ← acc;
                  if decide (cells s = ∅) then list_remove s cur else Some cur)
        (Some l) l.

(** [for s in tuple(l): if l.count(s) > 1: l.remove(s)] *)
Definition remove_duplicates (l : list Sentence) : option (list Sentence) :=
  foldl (λ acc s, cur ← acc;
                  if decide (1 < list_count s cur)%nat then list_remove s cur else Some cur)
        (Some l) l.

(** *** The two loops (lines 264-337) *)

(** What running a piece of the code can give: it returns, it raises an
    exception ([IndexError] of [pop], [ValueError] of [remove]), or the
    model's fuel is used up before the loop ends. *)
Inductive outcome (A : Type) : Type :=
  | Returned (a : A)
  | Raised
  | OutOfFuel.
Arguments Returned {A} a.
Arguments Raised {A}.
Arguments OutOfFuel {A}.

Definition obind {A B} (m : outcome A) (k : A → outcome B) : outcome B :=
  match m with
  | Returned a => k a
  | Raised => Raised
  | OutOfFuel => OutOfFuel
  end.

Definition of_option {A} (o : option A) : outcome A :=
  match o with Some a => Returned a | None => Raised end.

Notation "x ←← m ; k" := (obind m (λ x, k))
  (at level 20, m at level 100, k at level 200, only parsing, right associativity).

(** [new_sentences.pop()]: the last element and the list without it. *)
Definition pop (ns : list Sentence) : option (Sentence * list Sentence) :=
  match reverse ns with
  | [] => None
  | t :: r => Some (t, reverse r)
  end.

(** Lines 285-313: the marking pass, then the four pruning loops, in the
    order of the source. *)
Definition mark_and_prune (ai : MinesweeperAI) (ns : list Sentence)
    : option (MinesweeperAI * list Sentence) :=
  let ai1 := marking_pass ai in
  K1 ← remove_empty (knowledge ai1);
  ns1 ← remove_empty ns;
  K2 ← remove_duplicates K1;
  ns2 ← remove_duplicates ns1;
  Some (set_knowledge K2 ai1, ns2).

(** The inner [while True] (lines 278-322).  The test of line 317 is
    written as in the source: the sizes taken before the pass are compared
    with [>] against the sizes after it ([num_mines > len(self.mines)] is
    [len(self.mines) < num_mines]). *)
Fixpoint inner_loop (fuel : nat) (ai : MinesweeperAI) (ns : list Sentence)
    : outcome (MinesweeperAI * list Sentence) :=
  match fuel with
  | O => OutOfFuel
  | S fuel' =>
      let num_mines := size (mines ai) in
      let num_safes := size (safes ai) in
      match mark_and_prune ai ns with
      | None => Raised
      | Some (ai', ns') =>
          if decide ((size (mines ai') < num_mines)%nat ∨ (size (safes ai') < num_safes)%nat)
          then inner_loop fuel' ai' (generate_new_knowledge (knowledge ai') ns')
          else Returned (ai', ns')
      end
  end.

(** The body of the outer [while True] up to the test of line 336. *)
Definition outer_body (fuel : nat) (ai : MinesweeperAI) (ns : list Sentence)
    : outcome (MinesweeperAI * list Sentence) :=
  match pop ns with
  | None => Raised
  | Some (test_sentence, ns0) =>
      if decide (test_sentence ∉ knowledge ai) then
        let ai1 := set_knowledge (knowledge ai ++ [test_sentence]) ai in
        inner_loop fuel ai1 (generate_new_knowledge (knowledge ai1) ns0)
      else Returned (ai, ns0)
  end.

(** The outer [while True] (lines 264-337). *)
Fixpoint outer_loop (fuel : nat) (ai : MinesweeperAI) (ns : list Sentence)
    : outcome MinesweeperAI :=
  match fuel with
  | O => OutOfFuel
  | S fuel' =>
      r ←← outer_body fuel ai ns;
      if decide (length r.2 = 0%nat) then Returned r.1 else outer_loop fuel' r.1 r.2
  end.

(** Lines 229-232: [self.moves_made.add(cell)], [self.mark_safe(cell)]. *)
Definition record_move (cell : Cell) (ai : MinesweeperAI) : MinesweeperAI :=
  mark_safe cell
    (mkAI (height ai) (width ai) (moves_made ai ∪ {[cell]})
          (mines ai) (safes ai) (knowledge ai)).

(** [MinesweeperAI.add_knowledge(cell, count)] *)
Definition add_knowledge (fuel : nat) (cell : Cell) (cnt : Z)
    (ai : MinesweeperAI) : outcome MinesweeperAI :=
  let ai0 := record_move cell ai in
  outer_loop fuel ai0 [seed_sentence ai0 cell cnt].

(** ** Sequences of observations *)

(** The calls [add_knowledge(cell, count)] of a game, one after the other
    on the same object; each call gets the same fuel. *)
Definition add_all (fuel : nat) (obs : list (Cell * Z)) (ai : MinesweeperAI)
    : outcome MinesweeperAI :=
  foldl (λ o x, ai' ←← o; add_knowledge fuel x.1 x.2 ai') (Returned ai) obs.

(** ** class Minesweeper: the board that answers the observations *)

(** The board is kept as the set [B] of the cells [(i, j)] with
    [self.board[i][j]] true.  [Minesweeper.nearby_mines] (lines 55-78): the
    loops run over [range(cell[0] - 1, cell[0] + 2)] and
    [range(cell[1] - 1, cell[1] + 2)]. *)
Definition nearby_mines (h w : Z) (B : gset Cell) (cell : Cell) : Z :=
  foldl (λ cnt d,
           let c : Cell := (cell.1 + d.1, cell.2 + d.2) in
           if decide (c = cell) then cnt
           else if decide ((0 <= c.1 ∧ c.1 < h) ∧ (0 <= c.2 ∧ c.2 < w))
                then (if decide (c ∈ B) then cnt + 1 else cnt)
                else cnt)
        0 offset_pairs.

(** Revealing [cell] on the board [B]: the pair handed to [add_knowledge]. *)
Definition reveal (h w : Z) (B : gset Cell) (cell : Cell) : Cell * Z :=
  (cell, nearby_mines h w B cell).

(** ** Boards used in the examples below *)

(** 2 x 3, mines at (0,0), (0,1) and (1,1). *)
Definition board_a : gset Cell := {[ (0,0); (0,1); (1,1) ]}.
(** 2 x 4, the whole top row mined. *)
Definition board_b : gset Cell := {[ (0,0); (0,1); (0,2); (0,3) ]}.
(** 3 x 3, mines at (0,0), (0,1), (0,2), (1,0) and (2,1). *)
Definition board_c : gset Cell := {[ (0,0); (0,1); (0,2); (1,0); (2,1) ]}.

(** The state in which the third call on [board_b],
    [add_knowledge((1,0), 2)], enters the inner loop (line 278), the
    pending list at that point, and the state in which it leaves the loop. *)
Definition game_b_entry : MinesweeperAI :=
  mkAI 2 4 {[(1,3); (1,1); (1,0)]} ∅ {[(1,3); (1,1); (1,0)]}
       [mkSentence {[(0,2); (0,3); (1,2)]} 2;
        mkSentence {[(0,0); (0,1); (0,2); (1,2)]} 3;
        mkSentence {[(0,0); (0,1)]} 2].
Definition game_b_pending : list Sentence := [mkSentence {[(0,2); (1,2)]} 1].
Definition game_b_exit : MinesweeperAI :=
  mkAI 2 4 {[(1,3); (1,1); (1,0)]} {[(0,0); (0,1)]} {[(1,3); (1,1); (1,0)]}
       [mkSentence {[(0,2); (0,3); (1,2)]} 2;
        mkSentence {[(0,2); (1,2)]} 1].

(** The state on [board_a] after the first call, [add_knowledge((1,2), 2)]. *)
Definition game_a_second : MinesweeperAI :=
  mkAI 2 3 {[(1,2)]} ∅ {[(1,2)]} [mkSentence {[(0,1); (0,2); (1,1)]} 2].

(** ** Vocabulary for the seeded sentence *)

(** Chebyshev distance between two cells. *)
Definition chebyshev (c d : Cell) : Z :=
  Z.max (Z.abs (c.1 - d.1)) (Z.abs (c.2 - d.2)).

Definition shift (cell : Cell) (d : Z * Z) : Cell := (cell.1 + d.1, cell.2 + d.2).

Definition undetermined (ai : MinesweeperAI) (c : Cell) : Prop :=
  in_bounds ai c ∧ c ∉ safes ai ∧ c ∉ mines ai.
Definition known_mine_nb (ai : MinesweeperAI) (c : Cell) : Prop :=
  in_bounds ai c ∧ c ∉ safes ai ∧ c ∈ mines ai.
#[global] Instance undetermined_dec ai c : Decision (undetermined ai c).
Proof. unfold undetermined. apply _. Defined.
#[global] Instance known_mine_nb_dec ai c : Decision (known_mine_nb ai c).
Proof. unfold known_mine_nb. apply _. Defined.


(** ** Consistency with a board *)

(** The sentence [s] is true on the board whose mined cells are [B]. *)
Definition holds (B : gset Cell) (s : Sentence) : Prop :=
  count s = Z.of_nat (size (cells s ∩ B)).

(** Everything the AI believes is true on the board [B]. *)
Definition sound (B : gset Cell) (ai : MinesweeperAI) : Prop :=
  mines ai ⊆ B ∧ safes ai ## B ∧ Forall (holds B) (knowledge ai).

(** The states of a game on the board [B]: a fresh AI, then any number of
    calls [add_knowledge(cell, count)] that returned, each for a cell that
    is not mined and with the count the board gives for it. *)
Inductive reachable (B : gset Cell) : MinesweeperAI → Prop :=
  | reach_init (h w : Z) : reachable B (init h w)
  | reach_step (ai ai' : MinesweeperAI) (cell : Cell) (fuel : nat) :
      reachable B ai →
      cell ∉ B →
      add_knowledge fuel cell (nearby_mines (height ai) (width ai) B cell) ai
        = Returned ai' →
      reachable B ai'.

(** ** The measure that bounds the outer loop *)

(** Weights by number of cells: [wK k] for a sentence of [k] cells in the
    knowledge, [wP k] for one in the pending list.  A pending sentence
    weighs more than it can ever weigh in the knowledge, and a sentence in
    the knowledge weighs more than any pending sentence with fewer cells. *)
Fixpoint wK (k : nat) : nat :=
  match k with
  | O => 1
  | S j => wK j * (2 ^ j + 1) + 2
  end.

Definition wP (k : nat) : nat := wK k * (2 ^ k + 1) + 1.

(** The cell sets of the sentences of the knowledge and of the pending
    list. *)
Definition seen (K ns : list Sentence) : gset (gset Cell) :=
  list_to_set (cells <$> (K ++ ns)).

(** How many non-empty subsets of [X] are among the cell sets [Q]. *)
Definition present (Q : gset (gset Cell)) (X : gset Cell) : nat :=
  size (filter (λ Y, Y ≠ ∅ ∧ Y ⊆ X) Q).

(** The weight of a sentence with cells [X] in the knowledge: its base
    weight for each subset of [X] that may still be derived from it. *)
Definition kterm (Q : gset (gset Cell)) (X : gset Cell) : nat :=
  wK (size X) * (1 + (2 ^ size X - present Q X)).

Definition measure (K ns : list Sentence) : nat :=
  sum_list_with (λ t, wP (size (cells t))) ns
  + sum_list_with (λ s, kterm (seen K ns) (cells s)) K.

(** What the two loops keep true: the AI is sound and the pending
    sentences are true on the board. *)
Definition loop_inv (B : gset Cell) (ai : MinesweeperAI) (ns : list Sentence) : Prop :=
  sound B ai ∧ Forall (holds B) ns.

(** The pending lists that [generate_new_knowledge] goes through when it
    starts from [ns0] with the knowledge [K]: they stay true on the board
    and do not raise the measure. *)
Definition pending_ok (B : gset Cell) (K ns0 ns : list Sentence) : Prop :=
  Forall (holds B) ns ∧ (measure K ns ≤ measure K ns0)%nat.

(** ** Pruned knowledge *)

(** No sentence twice and no sentence without cells. *)
Definition pruned (K : list Sentence) : Prop :=
  NoDup K ∧ Forall (λ s, cells s ≠ ∅) K.

(** ** What a call may change *)

(** [ai'] has the dimensions and the moves of [ai], and at least its mines
    and its safe cells. *)
Definition extends (ai ai' : MinesweeperAI) : Prop :=
  height ai' = height ai ∧ width ai' = width ai ∧
  moves_made ai' = moves_made ai ∧
  mines ai ⊆ mines ai' ∧ safes ai ⊆ safes ai'.

(** ** The marking loops in one step *)

(** The sentence [s] once every cell of [X] has been marked as a mine,
    and once every cell of [X] has been marked as safe. *)
Definition without_mines (X : gset Cell) (s : Sentence) : Sentence :=
  mkSentence (cells s ∖ X) (count s - Z.of_nat (size (cells s ∩ X))).

Definition without_safes (X : gset Cell) (s : Sentence) : Sentence :=
  mkSentence (cells s ∖ X) (count s).

(** ** make_safe_move and make_random_move (lines 348-378) *)

(** [random.choice(seq)] is [seq[self._randbelow(len(seq))]], and raises
    [IndexError] on an empty sequence.  The generator is the function
    [rnd] that gives the result of [_randbelow(n)]; Python keeps it below
    [n]. *)
Definition random_choice {A} (rnd : nat → nat) (seq : list A) : outcome A :=
  of_option (seq !! rnd (length seq)).

(** [range(n)] *)
Definition py_range (n : Z) : list Z := Z.of_nat <$> seq 0 (Z.to_nat n).

(** [make_safe_move]: [None] is Python's [None]. *)
Definition make_safe_move (rnd : nat → nat) (ai : MinesweeperAI)
    : outcome (option Cell) :=
  let available_moves := safes ai ∖ moves_made ai in
  if decide (available_moves ≠ ∅)
  then c ←← random_choice rnd (elements available_moves); Returned (Some c)
  else Returned None.

(** [make_random_move] *)
Definition make_random_move (rnd : nat → nat) (ai : MinesweeperAI)
    : outcome (option Cell) :=
  let available_moves :=
    filter (λ c : Cell, (c ∉ moves_made ai) ∧ (c ∉ mines ai))
           (i ← py_range (height ai); j ← py_range (width ai); [(i, j)]) in
  if decide (available_moves ≠ [])
  then c ←← random_choice rnd available_moves; Returned (Some c)
  else Returned None.

(** ** class Minesweeper (lines 5-84) *)

Module Game.

(** [self.board] is the list of the rows, each a list of booleans;
    [self.mines] is the set of the mined cells. *)
Record t : Type := mk {
  height : Z;
  width : Z;
  mines : gset Cell;
  board : list (list bool);
  mines_found : gset Cell
}.

(** [l[i]] for a Python integer [i]: a negative index counts from the
    end, and an index out of range raises [IndexError] ([None]). *)
Definition py_index {A} (l : list A) (i : Z) : option A :=
  if decide (0 <= i) then l !! Z.to_nat i
  else if decide (- Z.of_nat (length l) <= i)
       then l !! Z.to_nat (Z.of_nat (length l) + i)
       else None.

(** The [while] loop of [__init__] (lines 26-31).  Each turn takes the
    results [(i, j)] of its two calls of [random.randrange] from [draws];
    the loop is out of fuel when [draws] is used up.
    [random.randrange(n)] raises [ValueError] when [n <= 0], and
    [self.board[i][j]] raises [IndexError] out of range. *)
Fixpoint place_mines (h w n : Z) (draws : list (nat * nat))
    (M : gset Cell) (b : list (list bool))
    : outcome (gset Cell * list (list bool)) :=
  if decide (Z.of_nat (size M) ≠ n) then
    match draws with
    | [] => OutOfFuel
    | (i, j) :: draws' =>
        if decide (h <= 0 ∨ w <= 0) then Raised
        else
          match b !! i with
          | None => Raised
          | Some row =>
              match row !! j with
              | None => Raised
              | Some true => place_mines h w n draws' M b
              | Some false =>
                  place_mines h w n draws'
                    (M ∪ {[(Z.of_nat i, Z.of_nat j)]})
                    (alter (λ r, <[j := true]> r) i b)
              end
          end
    end
  else Returned (M, b).

(** [Minesweeper.__init__(height, width, mines)] *)
Definition init (h w n : Z) (draws : list (nat * nat)) : outcome t :=
  r ←← place_mines h w n draws ∅
         (replicate (Z.to_nat h) (replicate (Z.to_nat w) false));
  Returned (mk h w r.1 r.2 ∅).

(** [is_mine(cell)]: [self.board[i][j]] *)
Definition is_mine (g : t) (cell : Cell) : outcome bool :=
  of_option (row ← py_index (board g) cell.1; py_index row cell.2).

(** [nearby_mines(cell)] (lines 55-78), on the board itself. *)
Definition nearby_mines (g : t) (cell : Cell) : outcome Z :=
  foldl (λ acc d,
           cnt ←← acc;
           let c : Cell := (cell.1 + d.1, cell.2 + d.2) in
           if decide (c = cell) then Returned cnt
           else if decide ((0 <= c.1 ∧ c.1 < height g) ∧ (0 <= c.2 ∧ c.2 < width g))
                then b ←← is_mine g c; Returned (if b : bool then cnt + 1 else cnt)
                else Returned cnt)
        (Returned 0) offset_pairs.

(** [won()] *)
Definition won (g : t) : bool := bool_decide (mines_found g = mines g).

(** The board has [height] rows of [width] squares and marks exactly the
    cells of [self.mines], which are all on the board. *)
Definition board_ok (g : t) : Prop :=
  length (board g) = Z.to_nat (height g) ∧
  Forall (λ row, length row = Z.to_nat (width g)) (board g) ∧
  (∀ i j : nat,
     (row ← board g !! i; row !! j) = Some true ↔ (Z.of_nat i, Z.of_nat j) ∈ mines g) ∧
  (∀ c, c ∈ mines g → (0 <= c.1 ∧ c.1 < height g) ∧ (0 <= c.2 ∧ c.2 < width g)).

End Game.

(** ** A further example state *)

(** On the 2 x 2 board without mines, the state after the first call,
    [add_knowledge((0,0), 0)]. *)
Definition game_d_first : MinesweeperAI :=
  mkAI 2 2 {[(0,0)]} ∅ {[(0,0); (0,1); (1,0); (1,1)]} [].

(** The game on the 2 x 2 board with its one mine at (1,1), as
    [Minesweeper(2, 2, 1)] builds it when [randrange] gives 1 and 1. *)
Definition game_e : Game.t :=
  Game.mk 2 2 {[(1,1)]} [[false; false]; [false; true]] ∅.

(** The state that the game on [board_c] returns, after (2,0), (2,2) and
    (1,1) have been revealed. *)
Definition game_c_exit : MinesweeperAI :=
  mkAI 3 3 {[(2,0); (2,2); (1,1)]}
       {[(0,0); (0,1); (0,2); (1,0); (2,1)]}
       {[(2,0); (2,2); (1,1); (1,2)]}
       [mkSentence {[(0,0); (0,1); (0,2); (1,2)]} 3].

(* ===================================================================== *)
(** * Properties *)
(* ===================================================================== *)

Lemma Sentence_eq (s t : Sentence) :
  cells s = cells t → count s = count t → s = t.
Proof. destruct s, t; simpl; intros; subst; reflexivity. Qed.

(** ** Sentence *)

(** C7: [known_safes] returns the cells of the sentence exactly when its
    count is 0 and returns nothing otherwise; [known_mines] returns the
    cells exactly when the count equals the number of cells and returns
    nothing otherwise; for the empty sentence with count 0 it returns the
    empty set. *)
Theorem known_cells_characterisation (s : Sentence) :
  (Sent.known_safes s = Some (cells s) ↔ count s = 0) ∧
  (Sent.known_safes s = None ↔ count s ≠ 0) ∧
  (Sent.known_mines s = Some (cells s) ↔ count s = Z.of_nat (size (cells s))) ∧
  (Sent.known_mines s = None ↔ count s ≠ Z.of_nat (size (cells s))) ∧
  Sent.known_mines (mkSentence ∅ 0) = Some ∅.
Proof.
  unfold Sent.known_safes, Sent.known_mines.
  repeat split; try (case_decide; (congruence || lia)).
Qed.

(** C8: marking a cell of the sentence removes it, and takes 1 from the
    count for a mine and nothing for a safe cell; marking a cell that is
    not in the sentence changes nothing. *)
Theorem sentence_mark_spec (s : Sentence) (c : Cell) :
  (c ∈ cells s →
     cells (Sent.mark_mine c s) = cells s ∖ {[c]} ∧
     (c ∉ cells (Sent.mark_mine c s)) ∧
     count (Sent.mark_mine c s) = count s - 1 ∧
     cells (Sent.mark_safe c s) = cells s ∖ {[c]} ∧
     (c ∉ cells (Sent.mark_safe c s)) ∧
     count (Sent.mark_safe c s) = count s) ∧
  (c ∉ cells s → Sent.mark_mine c s = s ∧ Sent.mark_safe c s = s).
Proof.
  unfold Sent.mark_mine, Sent.mark_safe. split; intros Hc.
  - rewrite !decide_True by done. simpl. repeat split; set_solver.
  - rewrite !decide_False by done. done.
Qed.

Lemma sent_mark_mine_idem (c : Cell) (s : Sentence) :
  Sent.mark_mine c (Sent.mark_mine c s) = Sent.mark_mine c s.
Proof.
  unfold Sent.mark_mine at 2 3. case_decide as Hc.
  - unfold Sent.mark_mine. simpl. apply decide_False. set_solver.
  - unfold Sent.mark_mine. by apply decide_False.
Qed.

Lemma sent_mark_safe_idem (c : Cell) (s : Sentence) :
  Sent.mark_safe c (Sent.mark_safe c s) = Sent.mark_safe c s.
Proof.
  unfold Sent.mark_safe at 2 3. case_decide as Hc.
  - unfold Sent.mark_safe. simpl. apply decide_False. set_solver.
  - unfold Sent.mark_safe. by apply decide_False.
Qed.

Lemma add_if_absent_idem (c : Cell) (X : gset Cell) :
  add_if_absent c (add_if_absent c X) = add_if_absent c X.
Proof.
  unfold add_if_absent at 2 3. case_decide as Hc.
  - unfold add_if_absent. by apply decide_True.
  - unfold add_if_absent. apply decide_True. set_solver.
Qed.

(** ** MinesweeperAI.mark_mine and mark_safe *)

(** Calling [mark_mine(c)] twice in a row leaves the AI in the same
    state (moves made, safes, mines, knowledge) as calling it once, and the
    same holds for [mark_safe(c)]. *)
Theorem mark_twice_same_as_once (c : Cell) (ai : MinesweeperAI) :
  mark_mine c (mark_mine c ai) = mark_mine c ai ∧
  mark_safe c (mark_safe c ai) = mark_safe c ai.
Proof.
  unfold mark_mine, mark_safe; simpl. split; f_equal.
  - apply add_if_absent_idem.
  - rewrite <- list_fmap_compose. apply list_fmap_ext.
    intros i s _. apply sent_mark_mine_idem.
  - apply add_if_absent_idem.
  - rewrite <- list_fmap_compose. apply list_fmap_ext.
    intros i s _. apply sent_mark_safe_idem.
Qed.

(** C9: in the state that the game on [board_c] returns, (0,0) is
    already in [mines] and (1,2) already in [safes], and both are still
    in the sentence of the knowledge.  There [mark_mine((0,0))] turns the
    sentence into {(0,1),(0,2),(1,2)} = 2 and [mark_safe((1,2))] turns it
    into {(0,0),(0,1),(0,2)} = 3, as do lines 229-232 of
    [add_knowledge] when (1,2) is played: marking a cell that is already
    marked changes the state. *)
Theorem remarking_changes_knowledge :
  add_all 10 (reveal 3 3 board_c <$> [(2,0); (2,2); (1,1)]) (init 3 3)
  = Returned game_c_exit ∧
  (0,0) ∈ mines game_c_exit ∧
  mark_mine (0,0) game_c_exit
  = set_knowledge [mkSentence {[(0,1); (0,2); (1,2)]} 2] game_c_exit ∧
  knowledge (mark_mine (0,0) game_c_exit) ≠ knowledge game_c_exit ∧
  (1,2) ∈ safes game_c_exit ∧
  mark_safe (1,2) game_c_exit
  = set_knowledge [mkSentence {[(0,0); (0,1); (0,2)]} 3] game_c_exit ∧
  knowledge (mark_safe (1,2) game_c_exit) ≠ knowledge game_c_exit ∧
  knowledge (record_move (1,2) game_c_exit)
  = [mkSentence {[(0,0); (0,1); (0,2)]} 3].
Proof.
  split; [vm_compute; reflexivity|].
  split; [by vm_compute|].
  split; [vm_compute; reflexivity|].
  split; [apply (bool_decide_unpack _); by vm_compute|].
  split; [by vm_compute|].
  split; [vm_compute; reflexivity|].
  split; [apply (bool_decide_unpack _); by vm_compute|].
  vm_compute; reflexivity.
Qed.

(** ** add_knowledge on concrete games *)

(** C1: on the 2 x 3 board [board_a], after the cells (1,2) and (1,0) are
    revealed the second call of [add_knowledge] returns with the sentence
    {(0,2)} = 0 in the knowledge although (0,2) is not in [safes]: the state
    at return is not closed under the direct-deduction rule. *)
Theorem closure_fails_at_return :
  add_all 10 (reveal 2 3 board_a <$> [(1,2); (1,0)]) (init 2 3)
  = Returned (mkAI 2 3 {[(1,2); (1,0)]} {[(0,0); (0,1); (1,1)]}
                   {[(1,2); (1,0)]} [mkSentence {[(0,2)]} 0])
  ∧ (0,2) ∉ ({[(1,2); (1,0)]} : gset Cell).
Proof. split; [vm_compute; reflexivity | by vm_compute]. Qed.

(** C3: on the 2 x 4 board [board_b], the third call of [add_knowledge]
    returns with A = {(0,2),(0,3),(1,2)} = 2 and B = {(0,2),(1,2)} = 1 in
    the knowledge; the sentence {(0,3)} = 1 is not there and (0,3) is not
    in [mines]. *)
Theorem subset_rule_not_applied :
  add_all 10 (reveal 2 4 board_b <$> [(1,3); (1,1); (1,0)]) (init 2 4)
  = Returned (mkAI 2 4 {[(1,3); (1,1); (1,0)]} {[(0,0); (0,1)]}
                   {[(1,3); (1,1); (1,0)]}
                   [mkSentence {[(0,2); (0,3); (1,2)]} 2;
                    mkSentence {[(0,2); (1,2)]} 1])
  ∧ (0,3) ∉ ({[(0,0); (0,1)]} : gset Cell).
Proof. split; [vm_compute; reflexivity | by vm_compute]. Qed.

(** C4: on the 3 x 3 board [board_c], the third call of [add_knowledge]
    returns with the sentence {(0,0),(0,1),(0,2),(1,2)} = 3 in the
    knowledge, while (0,0), (0,1), (0,2) are in [mines] and (1,2) is in
    [safes]. *)
Theorem resolved_cells_stay_in_knowledge :
  add_all 10 (reveal 3 3 board_c <$> [(2,0); (2,2); (1,1)]) (init 3 3)
  = Returned (mkAI 3 3 {[(2,0); (2,2); (1,1)]}
                   {[(0,0); (0,1); (0,2); (1,0); (2,1)]}
                   {[(2,0); (2,2); (1,1); (1,2)]}
                   [mkSentence {[(0,0); (0,1); (0,2); (1,2)]} 3]).
Proof. vm_compute; reflexivity. Qed.

(** C10: on the 2 x 3 board [board_a], after (1,2), (1,0) and (0,2) are
    revealed the third call of [add_knowledge] returns with the empty
    sentence {} = 0 in the knowledge. *)
Theorem empty_sentence_at_return :
  add_all 10 (reveal 2 3 board_a <$> [(1,2); (1,0); (0,2)]) (init 2 3)
  = Returned (mkAI 2 3 {[(1,2); (1,0); (0,2)]} {[(0,0); (0,1); (1,1)]}
                   {[(1,2); (1,0); (0,2)]} [mkSentence ∅ 0]).
Proof. vm_compute; reflexivity. Qed.

(** ** Marking never forgets a mine or a safe cell *)

Lemma add_if_absent_eq (c : Cell) (X : gset Cell) : add_if_absent c X = X ∪ {[c]}.
Proof. unfold add_if_absent. case_decide; set_solver. Qed.

Lemma mark_mines_grows (X : gset Cell) (ai : MinesweeperAI) :
  mines ai ⊆ mines (mark_mines X ai) ∧ safes (mark_mines X ai) = safes ai.
Proof.
  unfold mark_mines. generalize (elements X) as l. intros l. revert ai.
  induction l as [|c l IH]; intros ai; cbn [foldl]; [done|].
  destruct (IH (mark_mine c ai)) as [Hm Hs]. split.
  - etrans; [|exact Hm]. cbn. rewrite add_if_absent_eq. set_solver.
  - by rewrite Hs.
Qed.

Lemma mark_safes_grows (X : gset Cell) (ai : MinesweeperAI) :
  safes ai ⊆ safes (mark_safes X ai) ∧ mines (mark_safes X ai) = mines ai.
Proof.
  unfold mark_safes. generalize (elements X) as l. intros l. revert ai.
  induction l as [|c l IH]; intros ai; cbn [foldl]; [done|].
  destruct (IH (mark_safe c ai)) as [Hs Hm]. split.
  - etrans; [|exact Hs]. cbn. rewrite add_if_absent_eq. set_solver.
  - by rewrite Hm.
Qed.

Lemma mark_at_grows (ai : MinesweeperAI) (i : nat) :
  mines ai ⊆ mines (mark_at ai i) ∧ safes ai ⊆ safes (mark_at ai i).
Proof.
  unfold mark_at. destruct (knowledge ai !! i) as [s|]; [|done].
  set (ai1 := match truthy (Sent.known_mines s) with
              | Some X => mark_mines X ai | None => ai end).
  assert (mines ai ⊆ mines ai1 ∧ safes ai1 = safes ai) as [Hm Hs].
  { subst ai1. destruct (truthy _); [apply mark_mines_grows | done]. }
  destruct (knowledge ai1 !! i) as [s'|]; [|by rewrite Hs].
  destruct (truthy (Sent.known_safes s')) as [X|]; [|by rewrite Hs].
  destruct (mark_safes_grows X ai1) as [Hs' Hm']. split.
  - by rewrite Hm'.
  - by rewrite <- Hs, <- Hs'.
Qed.

Lemma marking_pass_grows (ai : MinesweeperAI) :
  mines ai ⊆ mines (marking_pass ai) ∧ safes ai ⊆ safes (marking_pass ai).
Proof.
  unfold marking_pass. generalize (seq 0 (length (knowledge ai))) as l.
  intros l. revert ai. induction l as [|i l IH]; intros ai; cbn [foldl]; [done|].
  destruct (IH (mark_at ai i)) as [Hm Hs], (mark_at_grows ai i) as [Hm' Hs'].
  split; etrans; eauto.
Qed.

Lemma mark_and_prune_grows ai ns ai' ns' :
  mark_and_prune ai ns = Some (ai', ns') →
  mines ai ⊆ mines ai' ∧ safes ai ⊆ safes ai'.
Proof.
  unfold mark_and_prune. intros H.
  destruct (remove_empty (knowledge _)) as [K1|]; [|done]. cbn in H.
  destruct (remove_empty ns) as [ns1|]; [|done]. cbn in H.
  destruct (remove_duplicates K1) as [K2|]; [|done]. cbn in H.
  destruct (remove_duplicates ns1) as [ns2|]; [|done]. cbn in H.
  injection H as <- <-. cbn. apply marking_pass_grows.
Qed.

(** The test of line 317 is never true: the inner loop stops after its
    first pass, whatever the pass has found. *)
Lemma inner_loop_single_pass (fuel : nat) (ai : MinesweeperAI) (ns : list Sentence) :
  inner_loop (S fuel) ai ns = of_option (mark_and_prune ai ns).
Proof.
  cbn [inner_loop]. destruct (mark_and_prune ai ns) as [[ai' ns']|] eqn:E; [|done].
  apply mark_and_prune_grows in E as [Hm%subseteq_size Hs%subseteq_size].
  rewrite decide_False by lia. done.
Qed.

(** C2: in the third call on the 2 x 4 board [board_b] the marking pass
    of the inner loop confirms two new mines ([mines] grows from 0 to 2
    cells), yet the loop is left at once: the pending list is returned as
    it was, although running [generate_new_knowledge] on the updated
    knowledge would have added the sentence {(0,3)} = 1. *)
Theorem inner_loop_exits_after_new_mines :
  (∃ prev,
     add_all 10 (reveal 2 4 board_b <$> [(1,3); (1,1)]) (init 2 4) = Returned prev ∧
     set_knowledge
       (knowledge (record_move (1,0) prev)
        ++ [seed_sentence (record_move (1,0) prev) (1,0)
              (nearby_mines 2 4 board_b (1,0))])
       (record_move (1,0) prev) = game_b_entry) ∧
  generate_new_knowledge (knowledge game_b_entry) [] = game_b_pending ∧
  mines game_b_entry = ∅ ∧
  inner_loop 10 game_b_entry game_b_pending = Returned (game_b_exit, game_b_pending) ∧
  mines game_b_exit = {[(0,0); (0,1)]} ∧
  generate_new_knowledge (knowledge game_b_exit) game_b_pending
  = game_b_pending ++ [mkSentence {[(0,3)]} 1].
Proof.
  split; [eexists; split; [vm_compute; reflexivity | vm_compute; reflexivity]|].
  repeat split; vm_compute; reflexivity.
Qed.

(** ** The seeded sentence *)

Lemma seed_fold ai cell l st :
  foldl (seed_step ai cell) st l
  = (st.1 ∪ list_to_set (filter (undetermined ai) (shift cell <$> l)),
     st.2 + Z.of_nat (length (filter (known_mine_nb ai) (shift cell <$> l)))).
Proof.
  revert st. induction l as [|d l IH]; intros [T a].
  - cbn. f_equal; [set_solver | lia].
  - cbn [foldl]. rewrite IH, fmap_cons, !filter_cons.
    unfold seed_step. fold (shift cell d).
    unfold undetermined at 2, known_mine_nb at 2.
    repeat case_decide; try tauto; cbn [fst snd length list_to_set];
      (f_equal; first [lia | set_solver]).
Qed.

Lemma elem_of_offset_pairs (d : Z * Z) :
  d ∈ offset_pairs ↔ (-1 <= d.1 <= 1) ∧ (-1 <= d.2 <= 1).
Proof.
  destruct d as [i j]. cbn. rewrite !elem_of_cons, elem_of_nil. simpl.
  split.
  - intros H. repeat (destruct H as [H|H]; [injection H as -> ->; lia|]). done.
  - intros [Hi Hj].
    assert (i = -1 ∨ i = 0 ∨ i = 1) as Hi' by lia.
    assert (j = -1 ∨ j = 0 ∨ j = 1) as Hj' by lia.
    destruct Hi' as [->|[->| ->]], Hj' as [->|[->| ->]]; tauto.
Qed.

Lemma shift_inj cell : Inj (=) (=) (shift cell).
Proof. intros [a b] [c d]. unfold shift. simpl. intros [= ? ?]. f_equal; lia. Qed.

Lemma NoDup_offset_pairs : NoDup offset_pairs.
Proof. apply (bool_decide_unpack _). by vm_compute. Qed.

Lemma elem_of_shifted cell c :
  c ∈ shift cell <$> offset_pairs ↔ chebyshev c cell <= 1.
Proof.
  rewrite list_elem_of_fmap. unfold chebyshev. split.
  - intros (d & -> & Hd%elem_of_offset_pairs). unfold shift. simpl. lia.
  - intros Hc. exists (c.1 - cell.1, c.2 - cell.2). split.
    + unfold shift. destruct c, cell. simpl. f_equal; lia.
    + apply elem_of_offset_pairs. simpl. lia.
Qed.

Lemma chebyshev_zero c d : chebyshev c d = 0 ↔ c = d.
Proof.
  unfold chebyshev. destruct c, d; simpl. split.
  - intros ?. f_equal; lia.
  - intros [= -> ->]. lia.
Qed.

Lemma record_move_safes cell ai : cell ∈ safes (record_move cell ai).
Proof.
  unfold record_move, mark_safe, add_if_absent; simpl.
  case_decide; set_solver.
Qed.

Lemma record_move_safes_other cell ai c :
  c ≠ cell → c ∈ safes (record_move cell ai) ↔ c ∈ safes ai.
Proof.
  unfold record_move, mark_safe, add_if_absent; simpl.
  case_decide; set_solver.
Qed.

(** C6: when [mines] and [safes] are disjoint, the cells of the seeded
    sentence are exactly the in-bounds cells at Chebyshev distance 1 from
    [cell] that are neither in [safes] nor in [mines] once [cell] has been
    marked safe, and its count is the observed count minus the number of
    in-bounds neighbours of [cell] that are in [mines]. *)
Theorem seed_sentence_spec (ai : MinesweeperAI) (cell : Cell) (cnt : Z) :
  mines ai ## safes ai →
  (∀ c, c ∈ cells (seed_sentence (record_move cell ai) cell cnt) ↔
        in_bounds ai c ∧ chebyshev c cell = 1 ∧
        c ∉ safes (record_move cell ai) ∧ c ∉ mines (record_move cell ai)) ∧
  count (seed_sentence (record_move cell ai) cell cnt)
  = cnt - Z.of_nat (size (filter (λ c, in_bounds ai c ∧ chebyshev c cell = 1)
                                 (mines (record_move cell ai)))).
Proof.
  intros Hdisj. unfold seed_sentence. rewrite seed_fold. cbn [fst snd cells count].
  assert (Hpos : ∀ c, 0 <= chebyshev c cell) by (intros; unfold chebyshev; lia).
  split.
  - intros c. rewrite elem_of_union, elem_of_list_to_set, list_elem_of_filter, elem_of_shifted.
    unfold undetermined. change (in_bounds (record_move cell ai) c) with (in_bounds ai c).
    split.
    + intros [?|((Hb & Hs & Hm) & Hle)]; [set_solver|].
      split; [done|]. split; [|done].
      assert (chebyshev c cell ≠ 0); [|specialize (Hpos c); lia].
      rewrite chebyshev_zero. intros ->. apply Hs, record_move_safes.
    + intros (Hb & Hc & Hs & Hm). right. split; [done | lia].
  - f_equal. rewrite Z.add_0_l. f_equal.
    rewrite <- (size_list_to_set (C:=gset Cell)).
    2:{ apply NoDup_filter, NoDup_fmap_2; [apply shift_inj | apply NoDup_offset_pairs]. }
    f_equal. apply set_eq. intros c.
    rewrite elem_of_list_to_set, list_elem_of_filter, elem_of_shifted, elem_of_filter.
    unfold known_mine_nb. change (in_bounds (record_move cell ai) c) with (in_bounds ai c).
    change (mines (record_move cell ai)) with (mines ai).
    split.
    + intros ((Hb & Hs & Hm) & Hle). split; [|done]. split; [done|].
      assert (chebyshev c cell ≠ 0); [|specialize (Hpos c); lia].
      rewrite chebyshev_zero. intros ->. apply Hs, record_move_safes.
    + intros ((Hb & Hc) & Hm). split; [|lia]. split; [done|]. split; [|done].
      rewrite record_move_safes_other; [set_solver|].
      intros ->. assert (chebyshev cell cell = 0) by by apply chebyshev_zero. lia.
Qed.

Lemma seed_sentence_spec_witness :
  (∀ c, c ∈ cells (seed_sentence (record_move (1,1) (init 3 3)) (1,1) 2) ↔
        in_bounds (init 3 3) c ∧ chebyshev c (1,1) = 1 ∧
        c ∉ safes (record_move (1,1) (init 3 3)) ∧ c ∉ mines (record_move (1,1) (init 3 3))) ∧
  count (seed_sentence (record_move (1,1) (init 3 3)) (1,1) 2)
  = 2 - Z.of_nat (size (filter (λ c, in_bounds (init 3 3) c ∧ chebyshev c (1,1) = 1)
                                 (mines (record_move (1,1) (init 3 3))))).
Proof. apply (seed_sentence_spec (init 3 3) (1,1) 2). simpl. set_solver. Defined.

(* ===================================================================== *)
(** * Termination of add_knowledge *)
(* ===================================================================== *)

(** The outer loop stops because [measure] goes down at every turn.  A
    pending sentence weighs [wP] of its size; a sentence of the knowledge
    weighs [wK] of its size for each part of it that has not been seen
    yet, plus once.  Popping a sentence lowers the measure whether it is
    dropped or appended; appending a derived sentence to the pending list
    is paid by the sentence of the knowledge it is a part of, which has one
    part less to wait for; marking a cell makes sentences smaller; pruning
    drops sentences.  All this needs the sentences to be true on the board:
    then a sentence is known by its cells, and a sentence with a count other
    than 0 has a cell. *)

(** ** Counting sets of subsets *)

Lemma size_set_map_inj (f : gset Cell → gset Cell) (Q : gset (gset Cell)) :
  (∀ Y1 Y2, Y1 ∈ Q → Y2 ∈ Q → f Y1 = f Y2 → Y1 = Y2) →
  size (set_map f Q : gset (gset Cell)) = size Q.
Proof.
  intros Hinj. unfold set_map. rewrite size_list_to_set.
  - rewrite length_fmap. reflexivity.
  - apply NoDup_fmap_2_strong; [|apply NoDup_elements].
    intros Y1 Y2 H1%elem_of_elements H2%elem_of_elements. by apply Hinj.
Qed.

(** A family of subsets of [X] has at most [2 ^ size X] members. *)
Lemma size_family_of_subsets (X : gset Cell) (Q : gset (gset Cell)) :
  (∀ Y, Y ∈ Q → Y ⊆ X) → (size Q ≤ Nat.pow 2 (size X))%nat.
Proof.
  revert Q. pattern X. apply set_ind_L; clear X; [|intros x X Hx IH]; intros Q HQ.
  - rewrite size_empty. cbn.
    etrans; [apply (subseteq_size Q {[∅]})|by rewrite size_singleton].
    intros Y HY%HQ. apply elem_of_singleton. by apply equiv_empty_L.
  - rewrite size_union, size_singleton by set_solver.
    set (Q0 := filter (λ Y, x ∉ Y) Q). set (Q1 := filter (λ Y, x ∈ Y) Q).
    assert (Q = Q0 ∪ Q1) as HQeq.
    { apply set_eq. intros Y. subst Q0 Q1. rewrite elem_of_union, !elem_of_filter.
      destruct (decide (x ∈ Y)); tauto. }
    rewrite HQeq, size_union_alt.
    assert (size Q0 ≤ 2 ^ size X)%nat as H0.
    { apply IH. intros Y [HxY HY%HQ]%elem_of_filter. set_solver. }
    assert (size (Q1 ∖ Q0) ≤ 2 ^ size X)%nat as H1.
    { etrans; [apply subseteq_size, (subseteq_difference_l Q1 Q0 Q1); done|].
      rewrite <- (size_set_map_inj (λ Y, Y ∖ {[x]}) Q1).
      - apply IH. intros Z (Y & -> & [HxY HY%HQ]%elem_of_filter)%elem_of_map.
        set_solver.
      - intros Y1 Y2 [H1 _]%elem_of_filter [H2 _]%elem_of_filter Heq.
        apply set_eq. intros y. destruct (decide (y = x)) as [->|]; [tauto|].
        set_solver. }
    cbn [Nat.pow Nat.add]. lia.
Qed.

Lemma present_bound (Q : gset (gset Cell)) (X : gset Cell) :
  (present Q X ≤ 2 ^ size X)%nat.
Proof.
  apply size_family_of_subsets. intros Y [[_ HY] _]%elem_of_filter. done.
Qed.

Lemma present_mono (Q Q' : gset (gset Cell)) (X : gset Cell) :
  (∀ Y, Y ≠ ∅ → Y ⊆ X → Y ∈ Q → Y ∈ Q') → (present Q X ≤ present Q' X)%nat.
Proof.
  intros H. apply subseteq_size. intros Y [[??] ?]%elem_of_filter.
  apply elem_of_filter. auto.
Qed.

Lemma present_gain (Q Q' : gset (gset Cell)) (X Y : gset Cell) :
  (∀ Z, Z ≠ ∅ → Z ⊆ X → Z ∈ Q → Z ∈ Q') →
  Y ≠ ∅ → Y ⊆ X → Y ∉ Q → Y ∈ Q' →
  (present Q X + 1 ≤ present Q' X)%nat.
Proof.
  intros H HY0 HYX HYQ HYQ'. unfold present.
  rewrite <- (size_singleton (C:=gset (gset Cell)) Y), <- size_union.
  - apply subseteq_size. intros Z [[[??] ?]%elem_of_filter| ->%elem_of_singleton]%elem_of_union;
      apply elem_of_filter; auto.
  - intros Z [_ ?]%elem_of_filter ->%elem_of_singleton. done.
Qed.

(** ** Weights *)

Lemma wK_pos (k : nat) : (1 ≤ wK k)%nat.
Proof. destruct k; cbn [wK]; lia. Qed.

Lemma wK_S (k : nat) : wK (S k) = (wP k + 1)%nat.
Proof. unfold wP. cbn [wK]. lia. Qed.

Lemma wK_mono (j k : nat) : (j ≤ k)%nat → (wK j ≤ wK k)%nat.
Proof.
  induction 1 as [|k _ IH]; [done|]. etrans; [exact IH|].
  cbn [wK]. nia.
Qed.

Lemma wP_lt_wK (j k : nat) : (j < k)%nat → (wP j + 1 ≤ wK k)%nat.
Proof. intros H. rewrite <- wK_S. apply wK_mono. lia. Qed.

Lemma kterm_lower (Q : gset (gset Cell)) (X : gset Cell) :
  (wK (size X) ≤ kterm Q X)%nat.
Proof. unfold kterm. nia. Qed.

Lemma kterm_upper (Q : gset (gset Cell)) (X : gset Cell) :
  (kterm Q X + 1 ≤ wP (size X))%nat.
Proof. unfold kterm, wP. nia. Qed.

Lemma kterm_mono (Q Q' : gset (gset Cell)) (X : gset Cell) :
  (∀ Y, Y ≠ ∅ → Y ⊆ X → Y ∈ Q → Y ∈ Q') → (kterm Q' X ≤ kterm Q X)%nat.
Proof.
  intros H%present_mono. unfold kterm.
  apply Nat.mul_le_mono_l. lia.
Qed.

Lemma kterm_gain (Q Q' : gset (gset Cell)) (X Y : gset Cell) :
  (∀ Z, Z ≠ ∅ → Z ⊆ X → Z ∈ Q → Z ∈ Q') →
  Y ≠ ∅ → Y ⊆ X → Y ∉ Q → Y ∈ Q' →
  (kterm Q' X + wK (size X) ≤ kterm Q X)%nat.
Proof.
  intros H HY0 HYX HYQ HYQ'.
  pose proof (present_gain Q Q' X Y H HY0 HYX HYQ HYQ') as Hg.
  pose proof (present_bound Q' X) as Hb. unfold kterm.
  transitivity (wK (size X) * (1 + (2 ^ size X - present Q' X) + 1))%nat; [lia|].
  apply Nat.mul_le_mono_l. lia.
Qed.

(** ** Sums over lists *)

Lemma sum_list_with_le {A} (f g : A → nat) (l : list A) :
  (∀ x, x ∈ l → (f x ≤ g x)%nat) → (sum_list_with f l ≤ sum_list_with g l)%nat.
Proof.
  induction l as [|x l IH]; intros H; cbn; [done|].
  apply Nat.add_le_mono; [apply H; left | apply IH; intros; apply H; by right].
Qed.

Lemma sum_list_with_le_gain {A} (f g : A → nat) (l : list A) (x : A) (d : nat) :
  (∀ y, y ∈ l → (f y ≤ g y)%nat) → x ∈ l → (f x + d ≤ g x)%nat →
  (sum_list_with f l + d ≤ sum_list_with g l)%nat.
Proof.
  intros Hle Hx Hd. induction l as [|y l IH]; [by apply elem_of_nil in Hx|].
  cbn. apply elem_of_cons in Hx as [<-|Hx].
  - assert (sum_list_with f l ≤ sum_list_with g l)%nat.
    { apply sum_list_with_le. intros; apply Hle; by right. }
    lia.
  - assert (f y ≤ g y)%nat by (apply Hle; left).
    assert (sum_list_with f l + d ≤ sum_list_with g l)%nat.
    { apply IH; [|done]. intros; apply Hle; by right. }
    lia.
Qed.

Lemma sum_list_with_sublist {A} (f : A → nat) (l1 l2 : list A) :
  l1 `sublist_of` l2 → (sum_list_with f l1 ≤ sum_list_with f l2)%nat.
Proof. induction 1; cbn; lia. Qed.

(** ** The cell sets seen *)

Lemma elem_of_seen (K ns : list Sentence) (Y : gset Cell) :
  Y ∈ seen K ns ↔ ∃ s, (s ∈ K ∨ s ∈ ns) ∧ cells s = Y.
Proof.
  unfold seen. rewrite elem_of_list_to_set, list_elem_of_fmap.
  split; intros (s & H1 & H2).
  - exists s. subst Y. rewrite elem_of_app in H2. done.
  - exists s. subst Y. rewrite elem_of_app. done.
Qed.

(** ** How the measure moves *)

Lemma wP_pos (k : nat) : (1 ≤ wP k)%nat.
Proof. unfold wP. lia. Qed.

(** Popping a sentence that the knowledge already has. *)
Lemma measure_pop_known (K ns : list Sentence) (t : Sentence) :
  t ∈ K → (measure K ns < measure K (ns ++ [t]))%nat.
Proof.
  intros Ht. unfold measure. rewrite sum_list_with_app. cbn [sum_list_with].
  pose proof (wP_pos (size (cells t))).
  assert (sum_list_with (λ s, kterm (seen K ns) (cells s)) K
          ≤ sum_list_with (λ s, kterm (seen K (ns ++ [t])) (cells s)) K)%nat; [|lia].
  apply sum_list_with_le. intros s _. apply kterm_mono.
  intros Y _ _ (u & Hu & <-)%elem_of_seen. apply elem_of_seen.
  rewrite elem_of_app, list_elem_of_singleton in Hu.
  destruct Hu as [?|[?| ->]]; eauto.
Qed.

(** Popping a sentence and appending it to the knowledge. *)
Lemma measure_pop_new (K ns : list Sentence) (t : Sentence) :
  (measure (K ++ [t]) ns < measure K (ns ++ [t]))%nat.
Proof.
  unfold measure. rewrite !sum_list_with_app. cbn [sum_list_with].
  pose proof (kterm_upper (seen (K ++ [t]) ns) (cells t)).
  assert (sum_list_with (λ s, kterm (seen (K ++ [t]) ns) (cells s)) K
          ≤ sum_list_with (λ s, kterm (seen K (ns ++ [t])) (cells s)) K)%nat; [|lia].
  apply sum_list_with_le. intros s _. apply kterm_mono.
  intros Y _ _ (u & Hu & <-)%elem_of_seen. apply elem_of_seen.
  exists u. rewrite !elem_of_app, list_elem_of_singleton in *. tauto.
Qed.

(** Appending to the pending list a new, smaller part of a sentence of the
    knowledge. *)
Lemma measure_push (K ns : list Sentence) (s1 temp : Sentence) :
  s1 ∈ K →
  cells temp ≠ ∅ → cells temp ⊆ cells s1 →
  (size (cells temp) < size (cells s1))%nat →
  cells temp ∉ seen K ns →
  (measure K (ns ++ [temp]) ≤ measure K ns)%nat.
Proof.
  intros Hs1 Hne Hsub Hlt Hnew. unfold measure.
  rewrite sum_list_with_app. cbn [sum_list_with].
  pose proof (wP_lt_wK _ _ Hlt).
  assert (sum_list_with (λ s, kterm (seen K (ns ++ [temp])) (cells s)) K
          + wK (size (cells s1))
          ≤ sum_list_with (λ s, kterm (seen K ns) (cells s)) K)%nat; [|lia].
  assert (∀ X Z, Z ≠ ∅ → Z ⊆ X → Z ∈ seen K ns → Z ∈ seen K (ns ++ [temp])) as Hcov.
  { intros X Z _ _ (u & Hu & <-)%elem_of_seen. apply elem_of_seen.
    exists u. rewrite elem_of_app. tauto. }
  apply (sum_list_with_le_gain _ _ K s1); [|done|].
  - intros s _. apply kterm_mono, Hcov.
  - apply (kterm_gain _ _ _ (cells temp)); [apply Hcov|done..|].
    apply elem_of_seen. exists temp. rewrite elem_of_app, list_elem_of_singleton. tauto.
Qed.

Lemma sum_list_with_fmap' {A B} (g : B → nat) (f : A → B) (l : list A) :
  sum_list_with g (f <$> l) = sum_list_with (g ∘ f) l.
Proof. induction l as [|x l IH]; cbn; [done|]. by rewrite IH. Qed.

Lemma size_remove (c : Cell) (X : gset Cell) :
  c ∈ X → size X = S (size (X ∖ {[c]})).
Proof.
  intros Hc. change (S ?n) with (1 + n)%nat.
  rewrite <- (size_singleton (C:=gset Cell) c), <- size_union by set_solver.
  f_equal. apply set_eq. intros y. destruct (decide (y = c)); set_solver.
Qed.

(** Removing a cell from every sentence of the knowledge. *)
Lemma measure_mark (K ns : list Sentence) (f : Sentence → Sentence) (c : Cell) :
  (∀ s, cells (f s) = cells s ∖ {[c]}) →
  (measure (f <$> K) ns ≤ measure K ns)%nat.
Proof.
  intros Hf. unfold measure. apply Nat.add_le_mono_l.
  rewrite sum_list_with_fmap'. apply sum_list_with_le. intros s Hs. cbn.
  rewrite Hf. destruct (decide (c ∈ cells s)) as [Hc|Hc].
  - pose proof (size_remove c (cells s) Hc) as Hsz.
    pose proof (kterm_upper (seen (f <$> K) ns) (cells s ∖ {[c]})).
    pose proof (kterm_lower (seen K ns) (cells s)).
    rewrite Hsz, wK_S in *. lia.
  - replace (cells s ∖ {[c]}) with (cells s) by set_solver.
    apply kterm_mono. intros Y _ HY (u & Hu & <-)%elem_of_seen.
    apply elem_of_seen. destruct Hu as [Hu|Hu]; [|eauto].
    exists (f u). split; [left; by apply list_elem_of_fmap_2|].
    rewrite Hf. set_solver.
Qed.

(** Dropping sentences while every non-empty cell set stays. *)
Lemma measure_sublist (K K' ns ns' : list Sentence) :
  K' `sublist_of` K → ns' `sublist_of` ns →
  (∀ s, s ∈ K → cells s ≠ ∅ → s ∈ K') →
  (∀ s, s ∈ ns → cells s ≠ ∅ → s ∈ ns') →
  (measure K' ns' ≤ measure K ns)%nat.
Proof.
  intros HK Hns HK' Hns'. unfold measure. apply Nat.add_le_mono.
  - by apply sum_list_with_sublist.
  - etrans; [|apply sum_list_with_sublist, HK].
    apply sum_list_with_le. intros s _. apply kterm_mono.
    intros Y HY _ (u & Hu & <-)%elem_of_seen. apply elem_of_seen.
    exists u. split; [|done]. destruct Hu; [left|right]; auto.
Qed.

(** ** Sentences that are true on a board *)

Section Board.
Variable B : gset Cell.

Lemma size_split (X : gset Cell) :
  size X = (size (X ∩ B) + size (X ∖ B))%nat.
Proof.
  rewrite <- size_union by set_solver. f_equal.
  apply set_eq. intros y. destruct (decide (y ∈ B)); set_solver.
Qed.

Lemma holds_all_mines (s : Sentence) :
  holds B s → Z.of_nat (size (cells s)) = count s → cells s ⊆ B.
Proof.
  unfold holds. intros Hs Hc. pose proof (size_split (cells s)) as Hsp.
  assert (size (cells s ∖ B) = 0%nat) as H0%size_empty_iff by lia.
  set_solver.
Qed.

Lemma holds_all_safe (s : Sentence) :
  holds B s → count s = 0 → cells s ## B.
Proof.
  unfold holds. intros Hs Hc.
  assert (size (cells s ∩ B) = 0%nat) as H0%size_empty_iff by lia.
  set_solver.
Qed.

Lemma holds_nonzero (s : Sentence) :
  holds B s → count s ≠ 0 → cells s ≠ ∅.
Proof.
  unfold holds. intros Hs Hc He. rewrite He in Hs.
  replace (∅ ∩ B) with (∅ : gset Cell) in Hs by set_solver.
  rewrite size_empty in Hs. lia.
Qed.

Lemma holds_same_cells (s t : Sentence) :
  holds B s → holds B t → cells s = cells t → s = t.
Proof.
  unfold holds. intros Hs Ht He. apply Sentence_eq; [done|]. rewrite Hs, Ht, He. done.
Qed.

Lemma holds_difference (s1 s2 : Sentence) :
  holds B s1 → holds B s2 → cells s2 ⊆ cells s1 →
  holds B (mkSentence (cells s1 ∖ cells s2) (count s1 - count s2)).
Proof.
  unfold holds. cbn. intros -> -> Hsub.
  replace ((cells s1 ∖ cells s2) ∩ B) with ((cells s1 ∩ B) ∖ (cells s2 ∩ B)) by set_solver.
  rewrite (size_difference (cells s1 ∩ B) (cells s2 ∩ B)) by set_solver.
  assert (size (cells s2 ∩ B) ≤ size (cells s1 ∩ B))%nat; [|lia].
  apply subseteq_size. set_solver.
Qed.

Lemma holds_mark_mine (c : Cell) (s : Sentence) :
  c ∈ B → holds B s → holds B (Sent.mark_mine c s).
Proof.
  unfold holds, Sent.mark_mine. intros Hc Hs. case_decide as Hin; [|done]. cbn.
  rewrite Hs. rewrite (size_remove c (cells s ∩ B)) by set_solver.
  replace ((cells s ∩ B) ∖ {[c]}) with (cells s ∖ {[c]} ∩ B) by set_solver. lia.
Qed.

Lemma holds_mark_safe (c : Cell) (s : Sentence) :
  c ∉ B → holds B s → holds B (Sent.mark_safe c s).
Proof.
  unfold holds, Sent.mark_safe. intros Hc Hs. case_decide as Hin; [|done]. cbn.
  rewrite Hs. do 2 f_equal. set_solver.
Qed.

(** *** One call of mark_mine or mark_safe *)

Lemma sound_mark_mine (c : Cell) (ai : MinesweeperAI) :
  c ∈ B → sound B ai → sound B (mark_mine c ai).
Proof.
  intros Hc (Hm & Hs & HK). unfold sound, mark_mine; cbn.
  rewrite add_if_absent_eq. split; [set_solver|]. split; [done|].
  apply Forall_fmap. eapply Forall_impl; [exact HK|]. intros s. by apply holds_mark_mine.
Qed.

Lemma sound_mark_safe (c : Cell) (ai : MinesweeperAI) :
  c ∉ B → sound B ai → sound B (mark_safe c ai).
Proof.
  intros Hc (Hm & Hs & HK). unfold sound, mark_safe; cbn.
  rewrite add_if_absent_eq. split; [done|]. split; [set_solver|].
  apply Forall_fmap. eapply Forall_impl; [exact HK|]. intros s. by apply holds_mark_safe.
Qed.

Lemma sound_mark_mines (X : gset Cell) (ai : MinesweeperAI) :
  X ⊆ B → sound B ai → sound B (mark_mines X ai).
Proof.
  intros HX. unfold mark_mines.
  assert (∀ c, c ∈ elements X → c ∈ B) as Hl by (intros c ?%elem_of_elements; auto).
  revert ai Hl. generalize (elements X) as l.
  induction l as [|c l IH]; intros ai Hl Hai; cbn [foldl]; [done|].
  apply IH; [intros; apply Hl; by right|]. apply sound_mark_mine; [apply Hl; left|done].
Qed.

Lemma sound_mark_safes (X : gset Cell) (ai : MinesweeperAI) :
  X ## B → sound B ai → sound B (mark_safes X ai).
Proof.
  intros HX. unfold mark_safes.
  assert (∀ c, c ∈ elements X → c ∉ B) as Hl by (intros c ?%elem_of_elements; set_solver).
  revert ai Hl. generalize (elements X) as l.
  induction l as [|c l IH]; intros ai Hl Hai; cbn [foldl]; [done|].
  apply IH; [intros; apply Hl; by right|]. apply sound_mark_safe; [apply Hl; left|done].
Qed.

Lemma truthy_Some (o : option (gset Cell)) (X : gset Cell) :
  truthy o = Some X → o = Some X ∧ X ≠ ∅.
Proof. destruct o as [Y|]; cbn; [|done]. case_decide; [done|]. by intros [= ->]. Qed.

Lemma sound_lookup (ai : MinesweeperAI) (i : nat) (s : Sentence) :
  sound B ai → knowledge ai !! i = Some s → holds B s.
Proof. intros (_ & _ & HK) Hi. eapply Forall_lookup_1; eauto. Qed.

Lemma sound_mark_at (ai : MinesweeperAI) (i : nat) :
  sound B ai → sound B (mark_at ai i).
Proof.
  intros Hai. unfold mark_at. destruct (knowledge ai !! i) as [s|] eqn:Hi; [|done].
  set (ai1 := match truthy (Sent.known_mines s) with
              | Some X => mark_mines X ai | None => ai end).
  assert (sound B ai1) as Hai1.
  { subst ai1. destruct (truthy _) as [X|] eqn:HX; [|done].
    apply truthy_Some in HX as [HX _]. unfold Sent.known_mines in HX.
    case_decide as Hc; [|done]. injection HX as <-.
    apply sound_mark_mines; [|done]. eapply holds_all_mines; [|done].
    by eapply sound_lookup. }
  destruct (knowledge ai1 !! i) as [s'|] eqn:Hi'; [|done].
  destruct (truthy (Sent.known_safes s')) as [X|] eqn:HX; [|done].
  apply truthy_Some in HX as [HX _]. unfold Sent.known_safes in HX.
  case_decide as Hc; [|done]. injection HX as <-.
  apply sound_mark_safes; [|done]. eapply holds_all_safe; [|done].
  by eapply sound_lookup.
Qed.

Lemma sound_marking_pass (ai : MinesweeperAI) :
  sound B ai → sound B (marking_pass ai).
Proof.
  unfold marking_pass. generalize (seq 0 (length (knowledge ai))) as l.
  intros l. revert ai. induction l as [|i l IH]; intros ai Hai; cbn [foldl]; [done|].
  by apply IH, sound_mark_at.
Qed.

End Board.

(** *** The measure during the marking pass *)

Lemma measure_mark_mines (X : gset Cell) (ai : MinesweeperAI) (ns : list Sentence) :
  (measure (knowledge (mark_mines X ai)) ns ≤ measure (knowledge ai) ns)%nat.
Proof.
  unfold mark_mines. generalize (elements X) as l. intros l. revert ai.
  induction l as [|c l IH]; intros ai; cbn [foldl]; [done|].
  etrans; [apply IH|]. cbn. apply (measure_mark _ _ _ c).
  intros s. unfold Sent.mark_mine. case_decide; [done|]. set_solver.
Qed.

Lemma measure_mark_safes (X : gset Cell) (ai : MinesweeperAI) (ns : list Sentence) :
  (measure (knowledge (mark_safes X ai)) ns ≤ measure (knowledge ai) ns)%nat.
Proof.
  unfold mark_safes. generalize (elements X) as l. intros l. revert ai.
  induction l as [|c l IH]; intros ai; cbn [foldl]; [done|].
  etrans; [apply IH|]. cbn. apply (measure_mark _ _ _ c).
  intros s. unfold Sent.mark_safe. case_decide; [done|]. set_solver.
Qed.

Lemma measure_mark_at (ai : MinesweeperAI) (i : nat) (ns : list Sentence) :
  (measure (knowledge (mark_at ai i)) ns ≤ measure (knowledge ai) ns)%nat.
Proof.
  unfold mark_at. destruct (knowledge ai !! i) as [s|]; [|done].
  set (ai1 := match truthy (Sent.known_mines s) with
              | Some X => mark_mines X ai | None => ai end).
  assert (measure (knowledge ai1) ns ≤ measure (knowledge ai) ns)%nat as H1.
  { subst ai1. destruct (truthy _); [apply measure_mark_mines | done]. }
  destruct (knowledge ai1 !! i) as [s'|]; [|done].
  destruct (truthy (Sent.known_safes s')); [|done].
  etrans; [apply measure_mark_safes | done].
Qed.

Lemma measure_marking_pass (ai : MinesweeperAI) (ns : list Sentence) :
  (measure (knowledge (marking_pass ai)) ns ≤ measure (knowledge ai) ns)%nat.
Proof.
  unfold marking_pass. generalize (seq 0 (length (knowledge ai))) as l.
  intros l. revert ai. induction l as [|i l IH]; intros ai; cbn [foldl]; [done|].
  etrans; [apply IH | apply measure_mark_at].
Qed.

(** ** Pruning *)

Lemma list_count_cons (x y : Sentence) (l : list Sentence) :
  list_count x (y :: l) = ((if decide (y = x) then 1 else 0) + list_count x l)%nat.
Proof. unfold list_count. rewrite filter_cons. by case_decide. Qed.

Lemma list_count_pos (x : Sentence) (l : list Sentence) :
  (0 < list_count x l)%nat ↔ x ∈ l.
Proof.
  induction l as [|y l IH]; [cbn; rewrite elem_of_nil; lia|].
  rewrite list_count_cons, elem_of_cons. case_decide; [subst; intuition lia|].
  rewrite <- IH. intuition (try congruence; lia).
Qed.

(** [list.remove(x)] succeeds when [x] is in the list, and takes away
    exactly one occurrence of [x]. *)
Lemma list_remove_spec (x : Sentence) (l : list Sentence) :
  x ∈ l →
  ∃ l', list_remove x l = Some l' ∧ l' `sublist_of` l ∧
        ∀ y, list_count y l = ((if decide (x = y) then 1 else 0) + list_count y l')%nat.
Proof.
  induction l as [|z l IH]; intros Hx; [by apply elem_of_nil in Hx|].
  cbn [list_remove]. destruct (decide (x = z)) as [->|Hne].
  - exists l. split; [done|]. split; [by apply sublist_cons|].
    intros y. rewrite list_count_cons. done.
  - apply elem_of_cons in Hx as [?|Hx]; [done|].
    destruct (IH Hx) as (l' & -> & Hsub & Hcnt). exists (z :: l').
    split; [done|]. split; [by apply sublist_skip|].
    intros y. rewrite !list_count_cons, (Hcnt y). lia.
Qed.

Lemma NoDup_list_count (l : list Sentence) :
  (∀ y, (list_count y l ≤ 1)%nat) → NoDup l.
Proof.
  induction l as [|x l IH]; intros Hc; constructor.
  - intros Hx%list_count_pos. specialize (Hc x). rewrite list_count_cons in Hc.
    rewrite decide_True in Hc by done. lia.
  - apply IH. intros y. specialize (Hc y). rewrite list_count_cons in Hc. lia.
Qed.

(** The loop [for s in tuple(l): if s.cells == set(): l.remove(s)], taken
    at any point: [rest] is what is left of the snapshot and [cur] is the
    list by then.  It never raises, keeps the order and the sentences with
    cells, and leaves no sentence without cells. *)
Lemma remove_empty_loop (rest cur : list Sentence) :
  (∀ v, cells v = ∅ → list_count v rest = list_count v cur) →
  ∃ l',
    foldl (λ acc s, cur ← acc;
                    if decide (cells s = ∅) then list_remove s cur else Some cur)
          (Some cur) rest = Some l' ∧
    l' `sublist_of` cur ∧
    (∀ y, y ∈ cur → cells y ≠ ∅ → y ∈ l') ∧
    (∀ y, y ∈ l' → cells y ≠ ∅).
Proof.
  revert cur. induction rest as [|s rest IH]; intros cur Hcnt; cbn [foldl].
  - exists cur. repeat split; [done..|].
    intros y Hy%list_count_pos He. rewrite <- (Hcnt y He) in Hy. cbn in Hy. lia.
  - cbn [mbind option_bind]. case_decide as Hs.
    + assert (s ∈ cur) as Hin.
      { apply list_count_pos. rewrite <- (Hcnt s Hs), list_count_cons.
        rewrite decide_True by done. lia. }
      destruct (list_remove_spec s cur Hin) as (cur' & -> & Hsub & Hc).
      destruct (IH cur') as (l' & -> & Hsub' & Hmem & Hne).
      { intros v Hv. specialize (Hcnt v Hv). rewrite list_count_cons, (Hc v) in Hcnt.
        destruct (decide (s = v)); lia. }
      exists l'. split; [done|]. split; [by etrans|]. split; [|done].
      intros y Hy Hne'. apply Hmem; [|done].
      apply list_count_pos. apply list_count_pos in Hy. rewrite (Hc y) in Hy.
      rewrite decide_False in Hy by (intros ->; done). lia.
    + destruct (IH cur) as (l' & -> & Hsub' & Hmem); [|by exists l'].
      intros v Hv. specialize (Hcnt v Hv). rewrite list_count_cons in Hcnt.
      rewrite decide_False in Hcnt by (intros ->; done). lia.
Qed.

Lemma remove_empty_spec (l : list Sentence) :
  ∃ l', remove_empty l = Some l' ∧ l' `sublist_of` l ∧
        (∀ y, y ∈ l → cells y ≠ ∅ → y ∈ l') ∧
        (∀ y, y ∈ l' → cells y ≠ ∅).
Proof. apply remove_empty_loop. done. Qed.

(** The loop [for s in tuple(l): if l.count(s) > 1: l.remove(s)], taken
    at any point.  It never raises, keeps the order and one copy at least
    of every sentence, and leaves no sentence twice. *)
Lemma remove_duplicates_loop (rest cur : list Sentence) :
  (∀ y, (list_count y cur ≤ 1 + list_count y rest)%nat) →
  ∃ l',
    foldl (λ acc s, cur ← acc;
                    if decide (1 < list_count s cur)%nat then list_remove s cur else Some cur)
          (Some cur) rest = Some l' ∧
    l' `sublist_of` cur ∧
    (∀ y, y ∈ cur → y ∈ l') ∧
    NoDup l'.
Proof.
  revert cur. induction rest as [|s rest IH]; intros cur Hcnt; cbn [foldl].
  - exists cur. repeat split; [done..|]. apply NoDup_list_count.
    intros y. specialize (Hcnt y). cbn in Hcnt. lia.
  - cbn [mbind option_bind]. case_decide as Hs.
    + assert (s ∈ cur) as Hin by (apply list_count_pos; lia).
      destruct (list_remove_spec s cur Hin) as (cur' & -> & Hsub & Hc).
      destruct (IH cur') as (l' & -> & Hsub' & Hmem & Hnd).
      { intros y. specialize (Hcnt y). rewrite list_count_cons, (Hc y) in Hcnt.
        destruct (decide (s = y)); lia. }
      exists l'. split; [done|]. split; [by etrans|]. split; [|done].
      intros y Hy. apply Hmem.
      apply list_count_pos. apply list_count_pos in Hy. rewrite (Hc y) in Hy.
      destruct (decide (s = y)) as [<-|]; [|lia].
      rewrite (Hc s), decide_True in Hs by done. lia.
    + destruct (IH cur) as (l' & -> & Hsub' & Hmem); [|by exists l'].
      intros y. specialize (Hcnt y). rewrite list_count_cons in Hcnt.
      destruct (decide (s = y)) as [<-|]; lia.
Qed.

Lemma remove_duplicates_spec (l : list Sentence) :
  ∃ l', remove_duplicates l = Some l' ∧ l' `sublist_of` l ∧
        (∀ y, y ∈ l → y ∈ l') ∧ NoDup l'.
Proof. apply remove_duplicates_loop. intros y. lia. Qed.

Lemma Forall_sublist {A} (P : A → Prop) (l1 l2 : list A) :
  l1 `sublist_of` l2 → Forall P l2 → Forall P l1.
Proof.
  intros Hsub. rewrite !Forall_forall. intros H x Hx. apply H.
  eapply elem_of_sublist; eauto.
Qed.

(** The marking pass and the pruning always run to their end, keep the
    loop invariant and do not raise the measure. *)
Lemma mark_and_prune_ok (B : gset Cell) (ai : MinesweeperAI) (ns : list Sentence) :
  loop_inv B ai ns →
  ∃ ai' ns',
    mark_and_prune ai ns = Some (ai', ns') ∧
    loop_inv B ai' ns' ∧
    (measure (knowledge ai') ns' ≤ measure (knowledge ai) ns)%nat.
Proof.
  intros [Hai Hns]. unfold mark_and_prune.
  pose proof (sound_marking_pass B ai Hai) as (Hm & Hs & HK).
  pose proof (measure_marking_pass ai ns) as Hmeas.
  destruct (remove_empty_spec (knowledge (marking_pass ai))) as (K1 & E1 & HK1 & HK1' & _).
  destruct (remove_empty_spec ns) as (ns1 & E2 & Hns1 & Hns1' & _).
  destruct (remove_duplicates_spec K1) as (K2 & E3 & HK2 & HK2' & _).
  destruct (remove_duplicates_spec ns1) as (ns2 & E4 & Hns2 & Hns2' & _).
  rewrite E1; cbn [mbind option_bind]. rewrite E2; cbn [mbind option_bind].
  rewrite E3; cbn [mbind option_bind]. rewrite E4; cbn [mbind option_bind].
  eexists _, _. split; [done|]. split.
  - split; [split; [done|split; [done|]]|]; cbn.
    + eapply Forall_sublist; [|exact HK]. by etrans.
    + eapply Forall_sublist; [|exact Hns]. by etrans.
  - cbn. etrans; [|exact Hmeas]. apply measure_sublist.
    + by etrans.
    + by etrans.
    + auto.
    + auto.
Qed.

(** After the pruning loops the knowledge has no sentence without cells
    and no sentence twice. *)
Lemma mark_and_prune_pruned (ai ai' : MinesweeperAI) (ns ns' : list Sentence) :
  mark_and_prune ai ns = Some (ai', ns') → pruned (knowledge ai').
Proof.
  unfold mark_and_prune.
  destruct (remove_empty_spec (knowledge (marking_pass ai))) as (K1 & E1 & _ & _ & HK1).
  destruct (remove_empty_spec ns) as (ns1 & E2 & _).
  destruct (remove_duplicates_spec K1) as (K2 & E3 & HK2 & _ & Hnd).
  destruct (remove_duplicates_spec ns1) as (ns2 & E4 & _).
  rewrite E1; cbn [mbind option_bind]. rewrite E2; cbn [mbind option_bind].
  rewrite E3; cbn [mbind option_bind]. rewrite E4; cbn [mbind option_bind].
  intros [= <- <-]. cbn. split; [done|].
  apply Forall_forall. intros y Hy. apply HK1. eapply elem_of_sublist; eauto.
Qed.

(** ** generate_new_knowledge *)

Lemma foldl_invariant {A C} (P : A → Prop) (f : A → C → A) (l : list C) (a : A) :
  (∀ acc x, x ∈ l → P acc → P (f acc x)) → P a → P (foldl f a l).
Proof.
  revert a. induction l as [|x l IH]; intros a Hstep Ha; cbn [foldl]; [done|].
  apply IH; [intros; apply Hstep; [by right|done]|]. apply Hstep; [left|done].
Qed.

Section Generate.
Variable B : gset Cell.
Variable K : list Sentence.
Hypothesis HK : Forall (holds B) K.

Lemma try_append_ok (ns0 ns : list Sentence) (s1 s2 : Sentence) :
  s1 ∈ K → s2 ∈ K → count s2 ≠ 0 → cells s2 ⊆ cells s1 →
  pending_ok B K ns0 ns →
  pending_ok B K ns0 (try_append K (mkSentence (cells s1 ∖ cells s2) (count s1 - count s2)) ns).
Proof.
  intros H1 H2 Hc Hsub [Hns Hm]. unfold try_append.
  case_decide as Hnew; [|done]. destruct Hnew as (Hn1 & Hn2 & Hne).
  rewrite Forall_forall in HK.
  assert (holds B (mkSentence (cells s1 ∖ cells s2) (count s1 - count s2))) as Ht.
  { apply holds_difference; [apply HK; done|apply HK; done|done]. }
  split; [apply Forall_app; split; [done|by apply Forall_singleton]|].
  etrans; [|exact Hm]. apply (measure_push K ns s1); cbn [cells]; try done.
  - set_solver.
  - assert (cells s2 ≠ ∅) as Hs2 by (eapply holds_nonzero; eauto).
    rewrite (size_difference (cells s1) (cells s2)) by done.
    assert (size (cells s2) ≠ 0)%nat.
    { intros H0. apply size_empty_inv, leibniz_equiv in H0. done. }
    pose proof (subseteq_size _ _ Hsub). lia.
  - intros (u & Hu & Hcells)%elem_of_seen.
    assert (u = mkSentence (cells s1 ∖ cells s2) (count s1 - count s2)) as ->.
    { apply (holds_same_cells B); [|done..].
      destruct Hu as [Hu|Hu]; [by apply HK|].
      rewrite Forall_forall in Hns. by apply Hns. }
    destruct Hu; done.
Qed.

Lemma gen_pair_ok (ns0 ns : list Sentence) (s1 s2 : Sentence) :
  s1 ∈ K → s2 ∈ K → pending_ok B K ns0 ns → pending_ok B K ns0 (gen_pair K s1 s2 ns).
Proof.
  intros H1 H2 Hns. unfold gen_pair.
  destruct (decide (s1 ≠ s2 ∧ count s1 ≠ 0 ∧ count s2 ≠ 0)) as [(_ & Hc1 & Hc2)|]; [|done].
  cbv zeta.
  destruct (decide (cells s2 ⊆ cells s1)), (decide (cells s1 ⊆ cells s2));
    repeat (first [assumption | apply try_append_ok]).
Qed.

Lemma generate_ok (ns : list Sentence) :
  Forall (holds B) ns →
  Forall (holds B) (generate_new_knowledge K ns) ∧
  (measure K (generate_new_knowledge K ns) ≤ measure K ns)%nat.
Proof.
  intros Hns. unfold generate_new_knowledge.
  apply (foldl_invariant (pending_ok B K ns)); [|by split].
  intros ns1 s1 H1 Hns1.
  apply (foldl_invariant (pending_ok B K ns)); [|done].
  intros ns2 s2 H2 Hns2. by apply gen_pair_ok.
Qed.

End Generate.

(** ** The outer loop *)

Lemma pop_spec (ns : list Sentence) :
  ns ≠ [] → ∃ t ns0, pop ns = Some (t, ns0) ∧ ns = ns0 ++ [t].
Proof.
  intros Hne. unfold pop. destruct (reverse ns) as [|t r] eqn:E.
  - apply (f_equal reverse) in E. rewrite reverse_involutive in E. done.
  - exists t, (reverse r). split; [done|].
    apply (f_equal reverse) in E. rewrite reverse_involutive, reverse_cons in E. done.
Qed.

Lemma pop_nil : pop [] = None.
Proof. reflexivity. Qed.

Section Loop.
Variable B : gset Cell.

(** One turn of the outer loop returns, keeps the invariant and lowers
    the measure. *)
Lemma outer_body_ok (fuel : nat) (ai : MinesweeperAI) (ns : list Sentence) :
  loop_inv B ai ns → ns ≠ [] →
  ∃ ai' ns',
    outer_body (S fuel) ai ns = Returned (ai', ns') ∧
    loop_inv B ai' ns' ∧
    (measure (knowledge ai') ns' < measure (knowledge ai) ns)%nat.
Proof.
  intros [Hai Hns] Hne. destruct (pop_spec ns Hne) as (t & ns0 & Hpop & ->).
  unfold outer_body. rewrite Hpop.
  apply Forall_app in Hns as [Hns0 Ht]. rewrite Forall_singleton in Ht.
  case_decide as Hnew.
  - set (ai1 := set_knowledge (knowledge ai ++ [t]) ai).
    assert (sound B ai1) as Hai1.
    { destruct Hai as (Hm & Hs & HK). split; [done|]. split; [done|]. cbn.
      apply Forall_app. split; [done|]. by apply Forall_singleton. }
    destruct (generate_ok B (knowledge ai1) (proj2 (proj2 Hai1)) ns0 Hns0) as [Hg Hgm].
    destruct (mark_and_prune_ok B ai1 (generate_new_knowledge (knowledge ai1) ns0))
      as (ai' & ns' & Hmp & Hinv & Hmm); [by split|].
    rewrite inner_loop_single_pass, Hmp. cbn [of_option].
    exists ai', ns'. split; [done|]. split; [done|].
    pose proof (measure_pop_new (knowledge ai) ns0 t). subst ai1. cbn in *. lia.
  - exists ai, ns0. split; [done|]. split; [by split|].
    apply measure_pop_known. first [done | by apply dec_stable].
Qed.

(** With fuel above the measure the outer loop returns. *)
Lemma outer_loop_returns (fuel : nat) (ai : MinesweeperAI) (ns : list Sentence) :
  loop_inv B ai ns → ns ≠ [] →
  (measure (knowledge ai) ns < fuel)%nat →
  ∃ ai', outer_loop fuel ai ns = Returned ai' ∧ sound B ai'.
Proof.
  revert ai ns. induction fuel as [|fuel IH]; intros ai ns Hinv Hne Hm; [lia|].
  destruct (outer_body_ok fuel ai ns Hinv Hne) as (ai1 & ns1 & Hb & Hinv1 & Hm1).
  cbn [outer_loop]. rewrite Hb. cbn [obind fst snd].
  case_decide as Hl.
  - exists ai1. split; [done|]. apply Hinv1.
  - apply IH; [done| |lia]. intros ->. done.
Qed.

(** Whatever the fuel, a result of the outer loop is sound. *)
Lemma outer_loop_sound (fuel : nat) (ai ai' : MinesweeperAI) (ns : list Sentence) :
  loop_inv B ai ns → outer_loop fuel ai ns = Returned ai' → sound B ai'.
Proof.
  revert ai ns. induction fuel as [|fuel IH]; intros ai ns Hinv Hr; [done|].
  cbn [outer_loop] in Hr. destruct (decide (ns = [])) as [->|Hne].
  { unfold outer_body in Hr. rewrite pop_nil in Hr. done. }
  destruct (outer_body_ok fuel ai ns Hinv Hne) as (ai1 & ns1 & Hb & Hinv1 & _).
  rewrite Hb in Hr. cbn [obind fst snd] in Hr. case_decide.
  - injection Hr as <-. apply Hinv1.
  - by eapply IH.
Qed.

End Loop.

(** The fuel only has to be enough: a turn of the outer loop does not
    depend on it, and more fuel gives the same result. *)
Lemma outer_body_fuel (f f' : nat) (ai : MinesweeperAI) (ns : list Sentence) :
  outer_body (S f) ai ns = outer_body (S f') ai ns.
Proof.
  unfold outer_body. destruct (pop ns) as [[t ns0]|]; [|done].
  case_decide; [|done]. by rewrite !inner_loop_single_pass.
Qed.

Lemma outer_loop_more_fuel (f f' : nat) (ai ai' : MinesweeperAI) (ns : list Sentence) :
  outer_loop f ai ns = Returned ai' → (f ≤ f')%nat →
  outer_loop f' ai ns = Returned ai'.
Proof.
  revert f' ai ns. induction f as [|f IH]; intros f' ai ns Hr Hle; [done|].
  destruct f' as [|f']; [lia|]. cbn [outer_loop] in *.
  rewrite (outer_body_fuel f' f).
  destruct (outer_body (S f) ai ns) as [[ai1 ns1]| |]; [|done..].
  cbn [obind fst snd] in *. case_decide; [done|]. apply IH; [done|lia].
Qed.

(** ** The seeded sentence is true on the board *)

Lemma nearby_fold (h w : Z) (B : gset Cell) (cell : Cell) (l : list (Z * Z)) (n : Z) :
  foldl (λ cnt d,
           let c : Cell := (cell.1 + d.1, cell.2 + d.2) in
           if decide (c = cell) then cnt
           else if decide ((0 <= c.1 ∧ c.1 < h) ∧ (0 <= c.2 ∧ c.2 < w))
                then (if decide (c ∈ B) then cnt + 1 else cnt)
                else cnt) n l
  = n + Z.of_nat (length (filter
        (λ c : Cell, c ≠ cell ∧ ((0 <= c.1 ∧ c.1 < h) ∧ (0 <= c.2 ∧ c.2 < w)) ∧ c ∈ B)
        (shift cell <$> l))).
Proof.
  revert n. induction l as [|d l IH]; intros n.
  - cbn. lia.
  - cbn [foldl]. rewrite IH, fmap_cons, filter_cons. cbv zeta. fold (shift cell d).
    repeat case_decide; try tauto; cbn [length]; lia.
Qed.

Lemma length_filter_split {A} (P Q R : A → Prop)
    `{!∀ x, Decision (P x), !∀ x, Decision (Q x), !∀ x, Decision (R x)} (l : list A) :
  (∀ x, x ∈ l → P x ↔ Q x ∨ R x) →
  (∀ x, x ∈ l → ¬ (Q x ∧ R x)) →
  length (filter P l) = (length (filter Q l) + length (filter R l))%nat.
Proof.
  induction l as [|x l IH]; intros Hiff Hex; [done|].
  rewrite !filter_cons.
  assert (x ∈ x :: l) as Hx by left.
  specialize (Hiff x Hx) as Hi. specialize (Hex x Hx) as He.
  assert (length (filter P l) = (length (filter Q l) + length (filter R l))%nat) as Hl.
  { apply IH; intros; [apply Hiff | apply Hex]; by right. }
  repeat case_decide; cbn [length]; first [tauto | lia].
Qed.

Lemma seed_sentence_holds (B : gset Cell) (ai : MinesweeperAI) (cell : Cell) :
  sound B ai → cell ∈ safes ai →
  holds B (seed_sentence ai cell (nearby_mines (height ai) (width ai) B cell)).
Proof.
  intros (Hm & Hs & _) Hcell. unfold holds, seed_sentence, nearby_mines.
  rewrite seed_fold, nearby_fold. cbn [fst snd cells count].
  set (L := shift cell <$> offset_pairs).
  assert (NoDup L) as HL.
  { apply NoDup_fmap_2; [apply shift_inj | apply NoDup_offset_pairs]. }
  replace ((∅ ∪ list_to_set (filter (undetermined ai) L)) ∩ B)
    with (list_to_set (C:=gset Cell) (filter (λ c, undetermined ai c ∧ c ∈ B) L)).
  2:{ apply set_eq. intros c.
      rewrite elem_of_intersection, elem_of_union, !elem_of_list_to_set, !list_elem_of_filter.
      set_solver. }
  rewrite size_list_to_set by by apply NoDup_filter.
  rewrite (length_filter_split _ (known_mine_nb ai) (λ c, undetermined ai c ∧ c ∈ B)).
  - lia.
  - intros c _. unfold known_mine_nb, undetermined, in_bounds.
    rewrite elem_of_disjoint in Hs. rewrite elem_of_subseteq in Hm. split.
    + intros (Hne & Hb & HB).
      assert (c ∉ safes ai) by (intros Hin; exact (Hs c Hin HB)).
      destruct (decide (c ∈ mines ai)); [left|right]; repeat split; first [lia | done].
    + intros [(Hb & Hns & HM)|((Hb & Hns & HM) & HB)].
      * split; [intros ->; done|]. split; [lia|]. by apply Hm.
      * split; [intros ->; done|]. split; [lia|done].
  - intros c _. unfold known_mine_nb, undetermined. tauto.
Qed.

(** ** add_knowledge returns *)

Lemma sound_init (B : gset Cell) (h w : Z) : sound B (init h w).
Proof. split; [set_solver|]. split; [set_solver|]. constructor. Qed.

Lemma sound_record_move (B : gset Cell) (cell : Cell) (ai : MinesweeperAI) :
  cell ∉ B → sound B ai → sound B (record_move cell ai).
Proof. intros Hc Hai. unfold record_move. by apply sound_mark_safe. Qed.

Lemma add_knowledge_inv (B : gset Cell) (cell : Cell) (ai : MinesweeperAI) :
  cell ∉ B → sound B ai →
  loop_inv B (record_move cell ai)
    [seed_sentence (record_move cell ai) cell
       (nearby_mines (height ai) (width ai) B cell)].
Proof.
  intros Hc Hai. split; [by apply sound_record_move|].
  apply Forall_singleton.
  apply (seed_sentence_holds B (record_move cell ai) cell).
  - by apply sound_record_move.
  - apply record_move_safes.
Qed.

Lemma add_knowledge_sound (B : gset Cell) (fuel : nat) (cell : Cell)
    (ai ai' : MinesweeperAI) :
  cell ∉ B → sound B ai →
  add_knowledge fuel cell (nearby_mines (height ai) (width ai) B cell) ai = Returned ai' →
  sound B ai'.
Proof.
  intros Hc Hai Hr. unfold add_knowledge in Hr.
  eapply outer_loop_sound; [|exact Hr]. by apply add_knowledge_inv.
Qed.

Lemma reachable_sound (B : gset Cell) (ai : MinesweeperAI) :
  reachable B ai → sound B ai.
Proof.
  induction 1 as [h w|ai ai' cell fuel _ IH Hc Hr]; [apply sound_init|].
  by eapply add_knowledge_sound.
Qed.

(** C5: in any state of a game on a board [B] (reached from a fresh AI by
    calls of [add_knowledge] with the counts of the board), the call of
    [add_knowledge] for a cell that is not mined, with the count the board
    gives for it, returns: there is a bound such that with any fuel from
    the bound on the outer loop empties the pending list and the call
    returns one and the same state, no exception being raised; that state
    is again a state of the game. *)
Theorem add_knowledge_terminates (B : gset Cell) (ai : MinesweeperAI) (cell : Cell) :
  reachable B ai → cell ∉ B →
  ∃ bound ai',
    reachable B ai' ∧
    ∀ fuel, (bound ≤ fuel)%nat →
      add_knowledge fuel cell (nearby_mines (height ai) (width ai) B cell) ai
        = Returned ai'.
Proof.
  intros Hreach Hc. pose proof (reachable_sound B ai Hreach) as Hai.
  pose proof (add_knowledge_inv B cell ai Hc Hai) as Hinv.
  set (ai0 := record_move cell ai) in *.
  set (seed := seed_sentence ai0 cell (nearby_mines (height ai) (width ai) B cell)) in *.
  destruct (outer_loop_returns B (S (measure (knowledge ai0) [seed])) ai0 [seed])
    as (ai' & Hr & _); [done|done|lia|].
  exists (S (measure (knowledge ai0) [seed])), ai'. split.
  - by eapply reach_step.
  - intros fuel Hle. unfold add_knowledge. fold ai0. fold seed.
    by eapply outer_loop_more_fuel.
Qed.

Lemma add_knowledge_terminates_witness :
  ∃ bound ai',
    reachable board_a ai' ∧
    ∀ fuel, (bound ≤ fuel)%nat →
      add_knowledge fuel (1,0)
        (nearby_mines (height game_a_second) (width game_a_second) board_a (1,0))
        game_a_second
        = Returned ai'.
Proof.
  apply (add_knowledge_terminates board_a game_a_second (1,0)).
  - apply (reach_step board_a (init 2 3) game_a_second (1,2) 10).
    + apply reach_init.
    + by vm_compute.
    + vm_compute. reflexivity.
  - by vm_compute.
Defined.

(* ===================================================================== *)
(** * What the code does keep *)
(* ===================================================================== *)

(** In the states of a game no cell is both a mine and safe. *)
Lemma reachable_disjoint (B : gset Cell) (ai : MinesweeperAI) :
  reachable B ai → mines ai ## safes ai.
Proof.
  intros (Hm & Hs & _)%reachable_sound.
  rewrite elem_of_disjoint in *. rewrite elem_of_subseteq in Hm.
  intros c Hc1 Hc2. exact (Hs c Hc2 (Hm c Hc1)).
Qed.

(** X27: right after [mark_mine(c)] or [mark_safe(c)] no sentence of the
    knowledge contains [c]. *)
Lemma mark_clears (c : Cell) (ai : MinesweeperAI) :
  Forall (λ s, c ∉ cells s) (knowledge (mark_mine c ai)) ∧
  Forall (λ s, c ∉ cells s) (knowledge (mark_safe c ai)).
Proof.
  split; cbn; apply Forall_fmap, Forall_forall; intros s _; cbn.
  - unfold Sent.mark_mine. case_decide; [cbn; set_solver | done].
  - unfold Sent.mark_safe. case_decide; [cbn; set_solver | done].
Qed.

(** X28: when the seeded sentence is already in the knowledge, the call
    returns the state reached after [self.mark_safe(cell)]: nothing is
    marked and nothing is pruned. *)
Lemma add_knowledge_known_seed (fuel : nat) (cell : Cell) (cnt : Z) (ai : MinesweeperAI) :
  seed_sentence (record_move cell ai) cell cnt ∈ knowledge (record_move cell ai) →
  add_knowledge (S fuel) cell cnt ai = Returned (record_move cell ai).
Proof.
  intros Hin. unfold add_knowledge. cbn [outer_loop]. unfold outer_body.
  change (pop [?t]) with (Some (t, @nil Sentence)). cbv iota beta.
  rewrite decide_False by (intros Hn; by apply Hn). reflexivity.
Qed.

(** A turn of the outer loop leaves the knowledge pruned when it found it
    pruned or when the popped sentence was new. *)
Lemma outer_body_pruned (fuel : nat) (ai ai' : MinesweeperAI) (ns ns' : list Sentence) :
  outer_body (S fuel) ai ns = Returned (ai', ns') →
  pruned (knowledge ai) ∨ (∃ t ns0, pop ns = Some (t, ns0) ∧ t ∉ knowledge ai) →
  pruned (knowledge ai').
Proof.
  unfold outer_body. destruct (pop ns) as [[t ns0]|] eqn:Hpop; [|done].
  case_decide as Hnew.
  - rewrite inner_loop_single_pass.
    destruct (mark_and_prune _ _) as [[ai1 ns1]|] eqn:E; [|done].
    cbn [of_option]. intros [= <- <-] _. by eapply mark_and_prune_pruned.
  - intros [= <- <-] [Hp|(t' & ns0' & [= <- <-] & Hn)]; [done|].
    exfalso. first [by apply Hn | by apply Hnew].
Qed.

Lemma outer_loop_pruned (fuel : nat) (ai ai' : MinesweeperAI) (ns : list Sentence) :
  outer_loop fuel ai ns = Returned ai' →
  pruned (knowledge ai) ∨ (∃ t ns0, pop ns = Some (t, ns0) ∧ t ∉ knowledge ai) →
  pruned (knowledge ai').
Proof.
  revert ai ns. induction fuel as [|fuel IH]; intros ai ns Hr Hstart; [done|].
  cbn [outer_loop] in Hr.
  destruct (outer_body (S fuel) ai ns) as [[ai1 ns1]| |] eqn:Hb; [|done..].
  cbn [obind fst snd] in Hr.
  pose proof (outer_body_pruned _ _ _ _ _ Hb Hstart) as Hp.
  case_decide; [by injection Hr as <-|]. eapply IH; [exact Hr|by left].
Qed.

(** X25: when the seeded sentence is not yet in the knowledge, the
    knowledge is pruned when [add_knowledge] returns: it has no empty
    sentence and no sentence twice. *)
Lemma add_knowledge_pruned (fuel : nat) (cell : Cell) (cnt : Z) (ai ai' : MinesweeperAI) :
  seed_sentence (record_move cell ai) cell cnt ∉ knowledge (record_move cell ai) →
  add_knowledge fuel cell cnt ai = Returned ai' →
  pruned (knowledge ai').
Proof.
  intros Hnew Hr. eapply outer_loop_pruned; [exact Hr|].
  right. eexists _, _. split; [reflexivity|done].
Qed.

(** ** The subset rule, when it is run *)

Lemma foldl_reaches {A C} (Q : A → Prop) (f : A → C → A) (l : list C) (x : C) (a : A) :
  x ∈ l →
  (∀ acc, Q (f acc x)) →
  (∀ acc y, Q acc → Q (f acc y)) →
  Q (foldl f a l).
Proof.
  intros Hx Hhit Hkeep. revert a. induction l as [|y l IH]; intros a.
  - by apply elem_of_nil in Hx.
  - cbn [foldl]. apply elem_of_cons in Hx as [<-|Hx]; [|by apply IH].
    apply foldl_invariant; [intros; by apply Hkeep | apply Hhit].
Qed.

Lemma try_append_keeps (K ns : list Sentence) (temp t : Sentence) :
  t ∈ ns ∨ t ∈ K → t ∈ try_append K temp ns ∨ t ∈ K.
Proof.
  intros [H|H]; [|by right]. left. unfold try_append.
  case_decide; [|done]. apply elem_of_app. by left.
Qed.

Lemma try_append_adds (K ns : list Sentence) (temp : Sentence) :
  cells temp ≠ ∅ → temp ∈ try_append K temp ns ∨ temp ∈ K.
Proof.
  intros Hne. unfold try_append. case_decide as Hc.
  - left. apply elem_of_app. right. by apply list_elem_of_singleton.
  - destruct (decide (temp ∈ ns)); [by left|].
    destruct (decide (temp ∈ K)); [by right|]. exfalso. by apply Hc.
Qed.

Lemma gen_pair_keeps (K ns : list Sentence) (s1 s2 t : Sentence) :
  t ∈ ns ∨ t ∈ K → t ∈ gen_pair K s1 s2 ns ∨ t ∈ K.
Proof.
  intros H. unfold gen_pair. case_decide; [|done]. cbv zeta.
  destruct (decide (cells s2 ⊆ cells s1)), (decide (cells s1 ⊆ cells s2));
    repeat (first [assumption | apply try_append_keeps]).
Qed.

(** X26: for two distinct sentences [A] and [B] of the knowledge with non-zero
    counts, the cells of [B] among those of [A] and some cell of [A] left
    over, [generate_new_knowledge] leaves the sentence
    [(A.cells - B.cells, A.count - B.count)] in the pending list, unless
    the knowledge has it already. *)
Lemma generate_derives (K ns : list Sentence) (A B : Sentence) :
  A ∈ K → B ∈ K → A ≠ B → count A ≠ 0 → count B ≠ 0 →
  cells B ⊆ cells A → cells A ∖ cells B ≠ ∅ →
  mkSentence (cells A ∖ cells B) (count A - count B) ∈ generate_new_knowledge K ns ∨
  mkSentence (cells A ∖ cells B) (count A - count B) ∈ K.
Proof.
  intros HA HB Hne HcA HcB Hsub Hleft. unfold generate_new_knowledge.
  set (t := mkSentence (cells A ∖ cells B) (count A - count B)).
  apply (foldl_reaches (λ ns', t ∈ ns' ∨ t ∈ K) _ K A); [done| |].
  - intros ns1.
    apply (foldl_reaches (λ ns', t ∈ ns' ∨ t ∈ K) _ K B); [done| |].
    + intros ns2. unfold gen_pair. rewrite decide_True by done. cbv zeta.
      rewrite (decide_True (P := cells B ⊆ cells A)) by done.
      case_decide; [apply try_append_keeps|]; by apply try_append_adds.
    + intros ns2 s2. apply gen_pair_keeps.
  - intros ns1 s1 H1.
    apply foldl_invariant; [|done]. intros ns2 s2 _. apply gen_pair_keeps.
Qed.

(* ===================================================================== *)
(** * Further properties of the AI *)
(* ===================================================================== *)

(** ** add_knowledge raises no exception *)

Lemma mark_and_prune_total (ai : MinesweeperAI) (ns : list Sentence) :
  ∃ ai' ns', mark_and_prune ai ns = Some (ai', ns').
Proof.
  unfold mark_and_prune.
  destruct (remove_empty_spec (knowledge (marking_pass ai))) as (K1 & E1 & _).
  destruct (remove_empty_spec ns) as (ns1 & E2 & _).
  destruct (remove_duplicates_spec K1) as (K2 & E3 & _).
  destruct (remove_duplicates_spec ns1) as (ns2 & E4 & _).
  rewrite E1; cbn [mbind option_bind]. rewrite E2; cbn [mbind option_bind].
  rewrite E3; cbn [mbind option_bind]. rewrite E4; cbn [mbind option_bind].
  by eexists _, _.
Qed.

Lemma outer_body_returns (fuel : nat) (ai : MinesweeperAI) (ns : list Sentence) :
  ns ≠ [] → ∃ ai' ns', outer_body (S fuel) ai ns = Returned (ai', ns').
Proof.
  intros Hne. destruct (pop_spec ns Hne) as (t & ns0 & Hpop & _).
  unfold outer_body. rewrite Hpop. case_decide; [|by eexists _, _].
  rewrite inner_loop_single_pass.
  destruct (mark_and_prune_total (set_knowledge (knowledge ai ++ [t]) ai)
              (generate_new_knowledge (knowledge ai ++ [t]) ns0)) as (ai' & ns' & E).
  cbn [knowledge set_knowledge]. cbn [knowledge set_knowledge] in E. rewrite E.
  by eexists _, _.
Qed.

Lemma outer_loop_never_raises (fuel : nat) (ai : MinesweeperAI) (ns : list Sentence) :
  ns ≠ [] → outer_loop fuel ai ns ≠ Raised.
Proof.
  revert ai ns. induction fuel as [|fuel IH]; intros ai ns Hne; [done|].
  destruct (outer_body_returns fuel ai ns Hne) as (ai' & ns' & Hb).
  cbn [outer_loop]. rewrite Hb. cbn [obind fst snd].
  case_decide as Hl; [done|]. apply IH. by intros ->.
Qed.

(** X1: whatever the state, the cell and the count, [add_knowledge]
    raises no exception: [new_sentences.pop()] is never called on an empty
    list and [list.remove] always finds its argument. *)
Theorem add_knowledge_never_raises (fuel : nat) (cell : Cell) (cnt : Z)
    (ai : MinesweeperAI) :
  add_knowledge fuel cell cnt ai ≠ Raised.
Proof. unfold add_knowledge. by apply outer_loop_never_raises. Qed.

(** ** What add_knowledge changes *)

Lemma extends_refl (ai : MinesweeperAI) : extends ai ai.
Proof. by repeat split. Qed.

Lemma extends_trans (a b c : MinesweeperAI) : extends a b → extends b c → extends a c.
Proof.
  intros (H1 & H2 & H3 & H4 & H5) (G1 & G2 & G3 & G4 & G5).
  repeat split; try congruence; by etrans.
Qed.

Lemma mark_mine_extends (c : Cell) (ai : MinesweeperAI) : extends ai (mark_mine c ai).
Proof. repeat split; cbn; try done. rewrite add_if_absent_eq. set_solver. Qed.

Lemma mark_safe_extends (c : Cell) (ai : MinesweeperAI) : extends ai (mark_safe c ai).
Proof. repeat split; cbn; try done. rewrite add_if_absent_eq. set_solver. Qed.

Lemma mark_at_extends (ai : MinesweeperAI) (i : nat) : extends ai (mark_at ai i).
Proof.
  unfold mark_at. destruct (knowledge ai !! i) as [s|]; [|apply extends_refl].
  set (ai1 := match truthy (Sent.known_mines s) with
              | Some X => mark_mines X ai | None => ai end).
  assert (extends ai ai1) as H1.
  { subst ai1. destruct (truthy _) as [X|]; [|apply extends_refl].
    unfold mark_mines. apply (foldl_invariant (extends ai)); [|apply extends_refl].
    intros a c _ Ha. eapply extends_trans; [exact Ha|apply mark_mine_extends]. }
  destruct (knowledge ai1 !! i) as [s'|]; [|done].
  destruct (truthy (Sent.known_safes s')) as [X|]; [|done].
  unfold mark_safes. apply (foldl_invariant (extends ai)); [|done].
  intros a c _ Ha. eapply extends_trans; [exact Ha|apply mark_safe_extends].
Qed.

Lemma mark_and_prune_extends (ai ai' : MinesweeperAI) (ns ns' : list Sentence) :
  mark_and_prune ai ns = Some (ai', ns') → extends ai ai'.
Proof.
  unfold mark_and_prune. intros H.
  destruct (remove_empty (knowledge _)) as [K1|]; [|done]. cbn in H.
  destruct (remove_empty ns) as [ns1|]; [|done]. cbn in H.
  destruct (remove_duplicates K1) as [K2|]; [|done]. cbn in H.
  destruct (remove_duplicates ns1) as [ns2|]; [|done]. cbn in H.
  injection H as <- <-.
  assert (extends ai (marking_pass ai)) as (H1 & H2 & H3 & H4 & H5).
  { unfold marking_pass. apply (foldl_invariant (extends ai)); [|apply extends_refl].
    intros a i _ Ha. eapply extends_trans; [exact Ha|apply mark_at_extends]. }
  by repeat split.
Qed.

Lemma outer_body_extends (fuel : nat) (ai ai' : MinesweeperAI) (ns ns' : list Sentence) :
  outer_body (S fuel) ai ns = Returned (ai', ns') → extends ai ai'.
Proof.
  unfold outer_body. destruct (pop ns) as [[t ns0]|]; [|done].
  case_decide.
  - rewrite inner_loop_single_pass.
    destruct (mark_and_prune _ _) as [[ai1 ns1]|] eqn:E; [|done].
    intros [= <- <-]. apply mark_and_prune_extends in E. exact E.
  - intros [= <- <-]. apply extends_refl.
Qed.

Lemma outer_loop_extends (fuel : nat) (ai ai' : MinesweeperAI) (ns : list Sentence) :
  outer_loop fuel ai ns = Returned ai' → extends ai ai'.
Proof.
  revert ai ns. induction fuel as [|fuel IH]; intros ai ns Hr; [done|].
  cbn [outer_loop] in Hr.
  destruct (outer_body (S fuel) ai ns) as [[ai1 ns1]| |] eqn:Hb; [|done..].
  cbn [obind fst snd] in Hr. apply outer_body_extends in Hb.
  case_decide; [by injection Hr as <-|].
  eapply extends_trans; [exact Hb|by eapply IH].
Qed.

Lemma add_knowledge_extends (fuel : nat) (cell : Cell) (cnt : Z)
    (ai ai' : MinesweeperAI) :
  add_knowledge fuel cell cnt ai = Returned ai' →
  height ai' = height ai ∧ width ai' = width ai ∧
  moves_made ai' = moves_made ai ∪ {[cell]} ∧
  mines ai ⊆ mines ai' ∧
  safes ai ∪ {[cell]} ⊆ safes ai'.
Proof.
  intros (H1 & H2 & H3 & H4 & H5)%outer_loop_extends.
  unfold record_move, mark_safe in *. cbn [height width moves_made mines safes] in *.
  rewrite add_if_absent_eq in H5. done.
Qed.

(** X2: a call of [add_knowledge] that returns keeps the dimensions, adds
    exactly [cell] to [moves_made], puts [cell] in [safes], and forgets no
    mine and no safe cell. *)
Theorem add_knowledge_frame (fuel : nat) (cell : Cell) (cnt : Z)
    (ai ai' : MinesweeperAI) :
  add_knowledge fuel cell cnt ai = Returned ai' →
  height ai' = height ai ∧ width ai' = width ai ∧
  moves_made ai' = moves_made ai ∪ {[cell]} ∧
  mines ai ⊆ mines ai' ∧
  safes ai ∪ {[cell]} ⊆ safes ai'.
Proof. apply add_knowledge_extends. Qed.

Lemma add_knowledge_frame_witness :
  height game_a_second = height (init 2 3) ∧ width game_a_second = width (init 2 3) ∧
  moves_made game_a_second = moves_made (init 2 3) ∪ {[(1,2)]} ∧
  mines (init 2 3) ⊆ mines game_a_second ∧
  safes (init 2 3) ∪ {[(1,2)]} ⊆ safes game_a_second.
Proof.
  apply (add_knowledge_frame 10 (1,2) 2 (init 2 3) game_a_second).
  vm_compute. reflexivity.
Defined.


(** ** Games: several calls in a row *)

Lemma add_all_cons (fuel : nat) (x : Cell * Z) (obs : list (Cell * Z)) (ai : MinesweeperAI) :
  add_all fuel (x :: obs) ai
  = (ai1 ←← add_knowledge fuel x.1 x.2 ai; add_all fuel obs ai1).
Proof.
  unfold add_all. cbn [foldl obind].
  destruct (add_knowledge fuel x.1 x.2 ai) as [ai1| |]; cbn [obind]; [done|..].
  - induction obs as [|y obs IH]; [done|]. cbn [foldl obind]. exact IH.
  - induction obs as [|y obs IH]; [done|]. cbn [foldl obind]. exact IH.
Qed.

(** X3: after any number of calls of [add_knowledge], [moves_made] is
    what it was plus exactly the cells of the calls, no mine and no safe
    cell has been forgotten, and if every move made was in [safes] before,
    every move made is in [safes] afterwards. *)
Theorem add_all_moves (fuel : nat) (obs : list (Cell * Z)) (ai ai' : MinesweeperAI) :
  add_all fuel obs ai = Returned ai' →
  moves_made ai' = moves_made ai ∪ list_to_set obs.*1 ∧
  mines ai ⊆ mines ai' ∧ safes ai ⊆ safes ai' ∧
  (moves_made ai ⊆ safes ai → moves_made ai' ⊆ safes ai').
Proof.
  revert ai. induction obs as [|x obs IH]; intros ai Hr.
  - injection Hr as <-. cbn. split; [set_solver|done].
  - rewrite add_all_cons in Hr.
    destruct (add_knowledge fuel x.1 x.2 ai) as [ai1| |] eqn:E; [|done..].
    cbn [obind] in Hr.
    apply add_knowledge_extends in E as (_ & _ & Hmv & Hm & Hs).
    destruct (IH ai1 Hr) as (Hmv' & Hm' & Hs' & Hinv).
    split; [|split; [|split]].
    + rewrite Hmv', Hmv, fmap_cons. cbn [list_to_set]. set_solver.
    + set_solver.
    + set_solver.
    + intros Hsub. apply Hinv. rewrite Hmv. set_solver.
Qed.

Lemma add_all_moves_witness :
  moves_made game_a_second = moves_made (init 2 3) ∪ list_to_set [((1,2), 2)].*1 ∧
  mines (init 2 3) ⊆ mines game_a_second ∧ safes (init 2 3) ⊆ safes game_a_second ∧
  (moves_made (init 2 3) ⊆ safes (init 2 3) → moves_made game_a_second ⊆ safes game_a_second).
Proof.
  apply (add_all_moves 10 [((1,2), 2)] (init 2 3) game_a_second).
  vm_compute. reflexivity.
Defined.

(** ** What the AI believes is true *)

Lemma add_all_reachable (B : gset Cell) (fuel : nat) (cs : list Cell)
    (ai ai' : MinesweeperAI) :
  reachable B ai → Forall (λ c, c ∉ B) cs →
  add_all fuel (reveal (height ai) (width ai) B <$> cs) ai = Returned ai' →
  reachable B ai'.
Proof.
  revert ai. induction cs as [|c cs IH]; intros ai Hreach Hcs Hr.
  - by injection Hr as <-.
  - rewrite fmap_cons, add_all_cons in Hr. cbn [reveal fst snd] in Hr.
    destruct (add_knowledge fuel c _ ai) as [ai1| |] eqn:E; [|done..].
    cbn [obind] in Hr. apply Forall_cons in Hcs as [Hc Hcs].
    pose proof (add_knowledge_extends _ _ _ _ _ E) as (Hh & Hw & _).
    apply (IH ai1); [by eapply reach_step|done|]. by rewrite Hh, Hw.
Qed.

(** X4: on a board with mines [B], after the cells [cs], none of them
    mined, have been revealed to a fresh AI with the counts of the board,
    every cell of [mines] is a mine of the board, no cell of [safes] is,
    and every sentence of the knowledge gives the number of mines among
    its cells. *)
Theorem game_knowledge_sound (B : gset Cell) (h w : Z) (fuel : nat)
    (cs : list Cell) (ai : MinesweeperAI) :
  Forall (λ c, c ∉ B) cs →
  add_all fuel (reveal h w B <$> cs) (init h w) = Returned ai →
  mines ai ⊆ B ∧ safes ai ## B ∧
  Forall (λ s, count s = Z.of_nat (size (cells s ∩ B))) (knowledge ai).
Proof.
  intros Hcs Hr. apply (reachable_sound B).
  apply (add_all_reachable B fuel cs (init h w)); [apply reach_init|done..].
Qed.

Lemma game_knowledge_sound_witness :
  mines game_b_exit ⊆ board_b ∧ safes game_b_exit ## board_b ∧
  Forall (λ s, count s = Z.of_nat (size (cells s ∩ board_b))) (knowledge game_b_exit).
Proof.
  apply (game_knowledge_sound board_b 2 4 10 [(1,3); (1,1); (1,0)] game_b_exit).
  - apply (bool_decide_unpack _). by vm_compute.
  - vm_compute. reflexivity.
Defined.

(** X5: in every state of a game on a board, the count of every sentence
    of the knowledge lies between 0 and the number of its cells. *)
Theorem sentence_count_in_range (B : gset Cell) (ai : MinesweeperAI) (s : Sentence) :
  reachable B ai → s ∈ knowledge ai →
  0 <= count s <= Z.of_nat (size (cells s)).
Proof.
  intros (_ & _ & HK)%reachable_sound Hs.
  rewrite Forall_forall in HK. rewrite (HK s Hs).
  assert (size (cells s ∩ B) ≤ size (cells s))%nat by (apply subseteq_size; set_solver).
  lia.
Qed.

Lemma sentence_count_in_range_witness :
  0 <= count (mkSentence {[(0,1); (0,2); (1,1)]} 2)
    <= Z.of_nat (size (cells (mkSentence {[(0,1); (0,2); (1,1)]} 2))).
Proof.
  apply (sentence_count_in_range board_a game_a_second).
  - apply (reach_step board_a (init 2 3) game_a_second (1,2) 10).
    + apply reach_init.
    + by vm_compute.
    + vm_compute. reflexivity.
  - apply list_elem_of_singleton. reflexivity.
Defined.


(** ** make_safe_move and make_random_move *)

Lemma random_choice_Some {A} (rnd : nat → nat) (l : list A) :
  (∀ n, 0 < n → rnd n < n)%nat → l ≠ [] →
  ∃ x, random_choice rnd l = Returned x ∧ x ∈ l.
Proof.
  intros Hrnd Hl. unfold random_choice.
  assert (0 < length l)%nat as Hlen by (destruct l; [done|cbn; lia]).
  destruct (lookup_lt_is_Some_2 l (rnd (length l)) (Hrnd _ Hlen)) as [x Hx].
  exists x. rewrite Hx. split; [done|]. by eapply list_elem_of_lookup_2.
Qed.

Lemma random_choice_elem_of {A} (rnd : nat → nat) (l : list A) (x : A) :
  random_choice rnd l = Returned x → x ∈ l.
Proof.
  unfold random_choice. destruct (l !! rnd (length l)) as [y|] eqn:E; [|done].
  intros [= <-]. by eapply list_elem_of_lookup_2.
Qed.

(** X6: with a generator that keeps [_randbelow(n)] below [n],
    [make_safe_move] returns [None] when every safe cell has been played,
    and otherwise returns a cell of [safes] that has not been played; it
    raises no exception. *)
Theorem make_safe_move_spec (rnd : nat → nat) (ai : MinesweeperAI) :
  (∀ n, 0 < n → rnd n < n)%nat →
  (safes ai ⊆ moves_made ai → make_safe_move rnd ai = Returned None) ∧
  (¬ safes ai ⊆ moves_made ai →
   ∃ c, make_safe_move rnd ai = Returned (Some c) ∧ c ∈ safes ai ∧ c ∉ moves_made ai).
Proof.
  intros Hrnd. unfold make_safe_move. cbv zeta. split; intros Hsub.
  - rewrite decide_False; [done|]. intros Hne. apply Hne. set_solver.
  - rewrite decide_True.
    2:{ intros He. apply Hsub. intros c Hc. destruct (decide (c ∈ moves_made ai)); [done|].
        assert (c ∈ safes ai ∖ moves_made ai) as Hin by set_solver.
        rewrite He in Hin. set_solver. }
    destruct (random_choice_Some rnd (elements (safes ai ∖ moves_made ai)) Hrnd)
      as (c & -> & Hc).
    { intros He. apply Hsub. apply elements_empty_inv in He.
      apply leibniz_equiv in He. set_solver. }
    exists c. apply elem_of_elements in Hc. split; [done|]. set_solver.
Qed.

Lemma make_safe_move_spec_witness :
  (safes game_d_first ⊆ moves_made game_d_first →
   make_safe_move (λ _, 0%nat) game_d_first = Returned None) ∧
  (¬ safes game_d_first ⊆ moves_made game_d_first →
   ∃ c, make_safe_move (λ _, 0%nat) game_d_first = Returned (Some c) ∧
        c ∈ safes game_d_first ∧ c ∉ moves_made game_d_first).
Proof. apply (make_safe_move_spec (λ _, 0%nat) game_d_first). intros n Hn. exact Hn. Defined.

(** X7: in every state of a game on a board with mines [B], a cell
    returned by [make_safe_move] is not a mine of the board and has not
    been played, whatever the random generator does. *)
Theorem make_safe_move_sound (B : gset Cell) (rnd : nat → nat)
    (ai : MinesweeperAI) (c : Cell) :
  reachable B ai → make_safe_move rnd ai = Returned (Some c) →
  c ∉ B ∧ c ∉ moves_made ai.
Proof.
  intros (_ & Hs & _)%reachable_sound. unfold make_safe_move. cbv zeta.
  case_decide; [|done].
  destruct (random_choice rnd _) as [x| |] eqn:E; [|done..].
  cbn [obind]. intros [= <-]. apply random_choice_elem_of, elem_of_elements in E.
  rewrite elem_of_disjoint in Hs. split; [|set_solver].
  intros HB. apply (Hs x); [set_solver|done].
Qed.

Lemma make_safe_move_sound_witness :
  (0,1) ∉ (∅ : gset Cell) ∧ (0,1) ∉ moves_made game_d_first.
Proof.
  apply (make_safe_move_sound ∅ (λ _, 0%nat) game_d_first (0,1)).
  - apply (reach_step ∅ (init 2 2) game_d_first (0,0) 10).
    + apply reach_init.
    + by vm_compute.
    + vm_compute. reflexivity.
  - vm_compute. reflexivity.
Defined.

Lemma elem_of_py_range (n x : Z) : x ∈ py_range n ↔ 0 <= x ∧ x < n.
Proof.
  unfold py_range. rewrite list_elem_of_fmap. split.
  - intros (k & -> & Hk%elem_of_seq). lia.
  - intros [H0 Hn]. exists (Z.to_nat x). split; [lia|]. apply elem_of_seq. lia.
Qed.

Lemma elem_of_board_cells (ai : MinesweeperAI) (c : Cell) :
  c ∈ (i ← py_range (height ai); j ← py_range (width ai); [(i, j)]) ↔ in_bounds ai c.
Proof.
  rewrite list_elem_of_bind. unfold in_bounds. split.
  - intros (i & (j & ->%list_elem_of_singleton & Hj%elem_of_py_range)%list_elem_of_bind
              & Hi%elem_of_py_range). cbn. lia.
  - intros [Hi Hj]. exists c.1. split; [|apply elem_of_py_range; lia].
    apply list_elem_of_bind. exists c.2. split; [|apply elem_of_py_range; lia].
    apply list_elem_of_singleton. by destruct c.
Qed.

(** X8: with a generator that keeps [_randbelow(n)] below [n],
    [make_random_move] returns [None] when every cell of the board has
    been played or is a known mine, and otherwise returns a cell of the
    board that has not been played and is not a known mine; it raises no
    exception. *)
Theorem make_random_move_spec (rnd : nat → nat) (ai : MinesweeperAI) :
  (∀ n, 0 < n → rnd n < n)%nat →
  ((∀ c, in_bounds ai c → c ∈ moves_made ai ∨ c ∈ mines ai) →
   make_random_move rnd ai = Returned None) ∧
  ((∃ c, in_bounds ai c ∧ c ∉ moves_made ai ∧ c ∉ mines ai) →
   ∃ c, make_random_move rnd ai = Returned (Some c) ∧
        in_bounds ai c ∧ c ∉ moves_made ai ∧ c ∉ mines ai).
Proof.
  intros Hrnd. unfold make_random_move. cbv zeta.
  set (l := filter _ _).
  assert (∀ c, c ∈ l ↔ in_bounds ai c ∧ c ∉ moves_made ai ∧ c ∉ mines ai) as Hl.
  { intros c. subst l. rewrite list_elem_of_filter, elem_of_board_cells. tauto. }
  split.
  - intros Hall. rewrite decide_False; [done|]. intros Hne. apply Hne.
    destruct l as [|c l']; [done|]. exfalso.
    destruct (proj1 (Hl c)) as (Hb & H1 & H2); [left|].
    destruct (Hall c Hb); done.
  - intros (c0 & Hc0). rewrite decide_True.
    2:{ intros He. apply Hl in Hc0. rewrite He in Hc0. by apply elem_of_nil in Hc0. }
    destruct (random_choice_Some rnd l Hrnd) as (c & -> & Hc).
    { intros He. apply Hl in Hc0. rewrite He in Hc0. by apply elem_of_nil in Hc0. }
    exists c. split; [done|]. by apply Hl.
Qed.

Lemma make_random_move_spec_witness :
  ((∀ c, in_bounds game_d_first c → c ∈ moves_made game_d_first ∨ c ∈ mines game_d_first) →
   make_random_move (λ n, n - 1)%nat game_d_first = Returned None) ∧
  ((∃ c, in_bounds game_d_first c ∧ c ∉ moves_made game_d_first ∧ c ∉ mines game_d_first) →
   ∃ c, make_random_move (λ n, n - 1)%nat game_d_first = Returned (Some c) ∧
        in_bounds game_d_first c ∧ c ∉ moves_made game_d_first ∧ c ∉ mines game_d_first).
Proof. apply (make_random_move_spec (λ n, n - 1)%nat game_d_first). intros n Hn. lia. Defined.


(** ** The marking loops do not depend on the order of the cells *)

Lemma without_mines_mark (c : Cell) (L : gset Cell) (s : Sentence) :
  without_mines L (Sent.mark_mine c s) = without_mines ({[c]} ∪ L) s.
Proof.
  unfold without_mines, Sent.mark_mine. case_decide as Hc; cbn [cells count].
  - apply Sentence_eq; cbn [cells count]; [set_solver|].
    assert (cells s ∩ ({[c]} ∪ L) = {[c]} ∪ (cells s ∖ {[c]}) ∩ L) as ->.
    { apply set_eq. intros y. destruct (decide (y = c)) as [->|]; set_solver. }
    rewrite (size_union ({[c]} : gset Cell) ((cells s ∖ {[c]}) ∩ L)) by set_solver.
    rewrite size_singleton. lia.
  - apply Sentence_eq; cbn [cells count]; [set_solver|].
    do 3 f_equal. set_solver.
Qed.

Lemma without_safes_mark (c : Cell) (L : gset Cell) (s : Sentence) :
  without_safes L (Sent.mark_safe c s) = without_safes ({[c]} ∪ L) s.
Proof.
  unfold without_safes, Sent.mark_safe. case_decide as Hc; cbn [cells count];
    apply Sentence_eq; cbn [cells count]; set_solver.
Qed.

Lemma mark_mine_list (l : list Cell) (ai : MinesweeperAI) :
  foldl (λ a c, mark_mine c a) ai l
  = mkAI (height ai) (width ai) (moves_made ai)
         (mines ai ∪ list_to_set l) (safes ai)
         (without_mines (list_to_set l) <$> knowledge ai).
Proof.
  revert ai. induction l as [|c l IH]; intros ai; cbn [foldl list_to_set].
  - destruct ai as [h w mv m sf K]. cbn. f_equal; [set_solver|].
    rewrite <- (list_fmap_id K) at 1. apply list_fmap_ext. intros i s _.
    destruct s as [X n]. unfold without_mines. cbn. apply Sentence_eq; cbn.
    + set_solver.
    + replace (X ∩ ∅) with (∅ : gset Cell) by set_solver. rewrite size_empty. lia.
  - rewrite IH. cbn [height width moves_made mines safes knowledge mark_mine].
    rewrite add_if_absent_eq. f_equal; [set_solver|].
    rewrite <- list_fmap_compose. apply list_fmap_ext. intros i s _. cbn.
    apply without_mines_mark.
Qed.

Lemma mark_safe_list (l : list Cell) (ai : MinesweeperAI) :
  foldl (λ a c, mark_safe c a) ai l
  = mkAI (height ai) (width ai) (moves_made ai)
         (mines ai) (safes ai ∪ list_to_set l)
         (without_safes (list_to_set l) <$> knowledge ai).
Proof.
  revert ai. induction l as [|c l IH]; intros ai; cbn [foldl list_to_set].
  - destruct ai as [h w mv m sf K]. cbn. f_equal; [set_solver|].
    rewrite <- (list_fmap_id K) at 1. apply list_fmap_ext. intros i s _.
    destruct s as [X n]. unfold without_safes. cbn. apply Sentence_eq; cbn; [set_solver|done].
  - rewrite IH. cbn [height width moves_made mines safes knowledge mark_safe].
    rewrite add_if_absent_eq. f_equal; [set_solver|].
    rewrite <- list_fmap_compose. apply list_fmap_ext. intros i s _. cbn.
    apply without_safes_mark.
Qed.

(** X9: the loops [for c in tuple(cells): self.mark_mine(c)] and
    [for c in tuple(cells): self.mark_safe(c)] give the same state in
    whatever order they go through the cells, repeated or not: the cells
    join [mines] (or [safes]), every sentence loses them, and for mines
    its count goes down by the number of them it had. *)
Theorem marking_loops_closed_form (l : list Cell) (ai : MinesweeperAI) :
  foldl (λ a c, mark_mine c a) ai l
  = mkAI (height ai) (width ai) (moves_made ai)
         (mines ai ∪ list_to_set l) (safes ai)
         ((λ s, mkSentence (cells s ∖ list_to_set l)
                  (count s - Z.of_nat (size (cells s ∩ list_to_set l))))
            <$> knowledge ai)
  ∧
  foldl (λ a c, mark_safe c a) ai l
  = mkAI (height ai) (width ai) (moves_made ai)
         (mines ai) (safes ai ∪ list_to_set l)
         ((λ s, mkSentence (cells s ∖ list_to_set l) (count s)) <$> knowledge ai).
Proof. split; [apply mark_mine_list | apply mark_safe_list]. Qed.

(** X10: two calls of [mark_mine], two calls of [mark_safe], and a call
    of each for two different cells can be swapped without changing the
    resulting state. *)
Theorem marks_commute (c d : Cell) (ai : MinesweeperAI) :
  mark_mine c (mark_mine d ai) = mark_mine d (mark_mine c ai) ∧
  mark_safe c (mark_safe d ai) = mark_safe d (mark_safe c ai) ∧
  (c ≠ d → mark_mine c (mark_safe d ai) = mark_safe d (mark_mine c ai)).
Proof.
  split; [|split].
  - pose proof (mark_mine_list [d; c] ai) as H1.
    pose proof (mark_mine_list [c; d] ai) as H2. cbn [foldl] in H1, H2.
    rewrite H1, H2. cbn [list_to_set].
    replace ({[d]} ∪ ({[c]} ∪ ∅) : gset Cell) with ({[c]} ∪ ({[d]} ∪ ∅) : gset Cell)
      by set_solver. done.
  - pose proof (mark_safe_list [d; c] ai) as H1.
    pose proof (mark_safe_list [c; d] ai) as H2. cbn [foldl] in H1, H2.
    rewrite H1, H2. cbn [list_to_set].
    replace ({[d]} ∪ ({[c]} ∪ ∅) : gset Cell) with ({[c]} ∪ ({[d]} ∪ ∅) : gset Cell)
      by set_solver. done.
  - intros Hne. unfold mark_mine, mark_safe. cbn. f_equal.
    rewrite <- !list_fmap_compose. apply list_fmap_ext. intros i s _. cbn.
    unfold Sent.mark_mine, Sent.mark_safe.
    repeat (case_decide; cbn [cells count] in * ); try (exfalso; set_solver);
      apply Sentence_eq; cbn [cells count]; set_solver.
Qed.


(** ** Sentences and the board *)

(** X11: for a sentence that is true on the board with mines [B] (its
    count is the number of mines among its cells), the cells returned by
    [known_mines] are all mines of the board and the cells returned by
    [known_safes] are all free of mines. *)
Theorem direct_deduction_sound (B : gset Cell) (s : Sentence) (X : gset Cell) :
  count s = Z.of_nat (size (cells s ∩ B)) →
  (Sent.known_mines s = Some X → X ⊆ B) ∧
  (Sent.known_safes s = Some X → X ## B).
Proof.
  intros Hs. unfold Sent.known_mines, Sent.known_safes. split; case_decide; try done.
  - intros [= <-]. by apply holds_all_mines.
  - intros [= <-]. by apply holds_all_safe.
Qed.

Lemma direct_deduction_sound_witness :
  (Sent.known_mines (mkSentence {[(0,0); (0,1)]} 2) = Some {[(0,0); (0,1)]} →
   ({[(0,0); (0,1)]} : gset Cell) ⊆ board_b) ∧
  (Sent.known_safes (mkSentence {[(0,0); (0,1)]} 2) = Some {[(0,0); (0,1)]} →
   ({[(0,0); (0,1)]} : gset Cell) ## board_b).
Proof.
  apply (direct_deduction_sound board_b (mkSentence {[(0,0); (0,1)]} 2)).
  vm_compute. reflexivity.
Defined.

(** X12: a sentence that is true on the board stays true when a mine of
    the board is marked in it with [mark_mine] and when a cell without a
    mine is marked in it with [mark_safe]. *)
Theorem sentence_mark_keeps_truth (B : gset Cell) (s : Sentence) (c : Cell) :
  count s = Z.of_nat (size (cells s ∩ B)) →
  (c ∈ B →
   count (Sent.mark_mine c s) = Z.of_nat (size (cells (Sent.mark_mine c s) ∩ B))) ∧
  (c ∉ B →
   count (Sent.mark_safe c s) = Z.of_nat (size (cells (Sent.mark_safe c s) ∩ B))).
Proof.
  intros Hs. split; intros Hc.
  - by apply (holds_mark_mine B c s).
  - by apply (holds_mark_safe B c s).
Qed.

Lemma sentence_mark_keeps_truth_witness :
  ((0,0) ∈ board_b →
   count (Sent.mark_mine (0,0) (mkSentence {[(0,0); (1,0)]} 1))
   = Z.of_nat (size (cells (Sent.mark_mine (0,0) (mkSentence {[(0,0); (1,0)]} 1)) ∩ board_b))) ∧
  ((0,0) ∉ board_b →
   count (Sent.mark_safe (0,0) (mkSentence {[(0,0); (1,0)]} 1))
   = Z.of_nat (size (cells (Sent.mark_safe (0,0) (mkSentence {[(0,0); (1,0)]} 1)) ∩ board_b))).
Proof.
  apply (sentence_mark_keeps_truth board_b (mkSentence {[(0,0); (1,0)]} 1) (0,0)).
  vm_compute. reflexivity.
Defined.

(** ** generate_new_knowledge *)

(** X13: when the sentences of the knowledge and of the pending list are
    true on a board, so are all the sentences of the pending list after
    [generate_new_knowledge]. *)
Theorem generate_new_knowledge_sound (B : gset Cell) (K ns : list Sentence) :
  Forall (λ s, count s = Z.of_nat (size (cells s ∩ B))) K →
  Forall (λ s, count s = Z.of_nat (size (cells s ∩ B))) ns →
  Forall (λ s, count s = Z.of_nat (size (cells s ∩ B))) (generate_new_knowledge K ns).
Proof. intros HK Hns. by apply (generate_ok B K HK ns). Qed.

Lemma generate_new_knowledge_sound_witness :
  Forall (λ s, count s = Z.of_nat (size (cells s ∩ board_b)))
         (generate_new_knowledge (knowledge game_b_exit) game_b_pending).
Proof.
  apply (generate_new_knowledge_sound board_b (knowledge game_b_exit) game_b_pending).
  - repeat constructor; vm_compute; reflexivity.
  - repeat constructor; vm_compute; reflexivity.
Defined.

(** The sentences that [generate_new_knowledge] may append for the
    knowledge [K] and the pending list [ns]. *)
Lemma try_append_shape (K ns new : list Sentence) (Φ : Sentence → Prop) (temp : Sentence) :
  NoDup new → Forall (λ t, cells t ≠ ∅ ∧ t ∉ K ∧ t ∉ ns ∧ Φ t) new → Φ temp →
  ∃ new', try_append K temp (ns ++ new) = ns ++ new' ∧ NoDup new' ∧
          Forall (λ t, cells t ≠ ∅ ∧ t ∉ K ∧ t ∉ ns ∧ Φ t) new'.
Proof.
  intros Hnd Hall Ht. unfold try_append. case_decide as Hc.
  - destruct Hc as (Hn & HK & Hne). rewrite elem_of_app in Hn.
    exists (new ++ [temp]). split; [by rewrite app_assoc|]. split.
    + apply NoDup_app. split; [done|]. split; [|apply NoDup_singleton].
      intros x Hx ->%list_elem_of_singleton. tauto.
    + apply Forall_app. split; [done|]. apply Forall_singleton. tauto.
  - by exists new.
Qed.

(** X14: [generate_new_knowledge] only appends to the pending list; the
    sentences it appends are pairwise different, have cells, are neither
    in the knowledge nor in the pending list it was given, and each is
    [(A.cells - B.cells, A.count - B.count)] for two different sentences
    [A], [B] of the knowledge with non-zero counts and the cells of [B]
    among those of [A]. *)
Theorem generate_new_knowledge_appends (K ns : list Sentence) :
  ∃ new,
    generate_new_knowledge K ns = ns ++ new ∧ NoDup new ∧
    Forall (λ t, cells t ≠ ∅ ∧ t ∉ K ∧ t ∉ ns ∧
                 ∃ A B, A ∈ K ∧ B ∈ K ∧ A ≠ B ∧ count A ≠ 0 ∧ count B ≠ 0 ∧
                        cells B ⊆ cells A ∧
                        t = mkSentence (cells A ∖ cells B) (count A - count B)) new.
Proof.
  set (Φ := λ t : Sentence,
         ∃ A B, A ∈ K ∧ B ∈ K ∧ A ≠ B ∧ count A ≠ 0 ∧ count B ≠ 0 ∧
                cells B ⊆ cells A ∧
                t = mkSentence (cells A ∖ cells B) (count A - count B)).
  set (P := λ acc : list Sentence,
         ∃ new, acc = ns ++ new ∧ NoDup new ∧
                Forall (λ t, cells t ≠ ∅ ∧ t ∉ K ∧ t ∉ ns ∧ Φ t) new).
  unfold generate_new_knowledge.
  apply (foldl_invariant P).
  2:{ exists []. split; [by rewrite app_nil_r|]. split; [constructor|constructor]. }
  intros acc1 s1 H1 Hacc1. apply (foldl_invariant P); [|done].
  intros acc s2 H2 (new & -> & Hnd & Hall). unfold gen_pair.
  case_decide as Hc; [|by exists new]. destruct Hc as (Hne & Hc1 & Hc2). cbv zeta.
  assert (∃ new1, (if decide (cells s2 ⊆ cells s1)
                   then try_append K (mkSentence (cells s1 ∖ cells s2) (count s1 - count s2))
                          (ns ++ new)
                   else ns ++ new) = ns ++ new1 ∧ NoDup new1 ∧
                  Forall (λ t, cells t ≠ ∅ ∧ t ∉ K ∧ t ∉ ns ∧ Φ t) new1)
    as (new1 & -> & Hnd1 & Hall1).
  { destruct (decide (cells s2 ⊆ cells s1)); [|by exists new].
    apply try_append_shape; [done..|]. exists s1, s2. done. }
  destruct (decide (cells s1 ⊆ cells s2)); [|by exists new1].
  apply try_append_shape; [done..|]. exists s2, s1.
  repeat split; first [done | by intros ->].
Qed.

Lemma generate_derives_witness :
  mkSentence (cells (mkSentence {[(0,2); (0,3); (1,2)]} 2)
              ∖ cells (mkSentence {[(0,2); (1,2)]} 1))
             (count (mkSentence {[(0,2); (0,3); (1,2)]} 2)
              - count (mkSentence {[(0,2); (1,2)]} 1))
    ∈ generate_new_knowledge (knowledge game_b_exit) game_b_pending ∨
  mkSentence (cells (mkSentence {[(0,2); (0,3); (1,2)]} 2)
              ∖ cells (mkSentence {[(0,2); (1,2)]} 1))
             (count (mkSentence {[(0,2); (0,3); (1,2)]} 2)
              - count (mkSentence {[(0,2); (1,2)]} 1))
    ∈ knowledge game_b_exit.
Proof.
  apply (generate_derives (knowledge game_b_exit) game_b_pending
           (mkSentence {[(0,2); (0,3); (1,2)]} 2) (mkSentence {[(0,2); (1,2)]} 1)).
  - apply (bool_decide_unpack _). by vm_compute.
  - apply (bool_decide_unpack _). by vm_compute.
  - apply (bool_decide_unpack _). by vm_compute.
  - cbn. lia.
  - cbn. lia.
  - apply (bool_decide_unpack _). by vm_compute.
  - apply (bool_decide_unpack _). by vm_compute.
Defined.


(** ** The pruning loops as list functions *)

Lemma filter_all_true {A} (P : A → Prop) `{!∀ x, Decision (P x)} (l : list A) :
  Forall P l → filter P l = l.
Proof.
  induction 1 as [|x l Hx _ IH]; [done|].
  rewrite filter_cons, decide_True by done. by rewrite IH.
Qed.

Lemma list_remove_Some_inv (x : Sentence) (l l' : list Sentence) :
  list_remove x l = Some l' →
  x ∈ l ∧ ∀ y, list_count y l = ((if decide (x = y) then 1 else 0) + list_count y l')%nat.
Proof.
  intros E. assert (x ∈ l) as Hx.
  { revert l' E. induction l as [|z l IH]; intros l' E; [done|].
    cbn [list_remove] in E. case_decide; [subst; left|].
    destruct (list_remove x l) as [l1|]; [|done]. right. by eapply IH. }
  split; [done|]. destruct (list_remove_spec x l Hx) as (l1 & E1 & _ & Hc).
  rewrite E in E1. by injection E1 as <-.
Qed.

Lemma list_remove_filter (P : Sentence → Prop) `{!∀ x, Decision (P x)}
    (x : Sentence) (l l' : list Sentence) :
  list_remove x l = Some l' → ¬ P x → filter P l' = filter P l.
Proof.
  intros E Hx. revert l' E. induction l as [|z l IH]; intros l' E; [done|].
  cbn [list_remove] in E. case_decide as Hz.
  - injection E as <-. subst z. by rewrite filter_cons, decide_False.
  - destruct (list_remove x l) as [l1|]; [|done]. injection E as <-.
    rewrite !filter_cons, (IH l1) by done. done.
Qed.

Lemma remove_empty_loop_filter (rest cur : list Sentence) :
  (∀ v, cells v = ∅ → list_count v rest = list_count v cur) →
  foldl (λ acc s, cur ← acc;
                  if decide (cells s = ∅) then list_remove s cur else Some cur)
        (Some cur) rest
  = Some (filter (λ s, cells s ≠ ∅) cur).
Proof.
  revert cur. induction rest as [|s rest IH]; intros cur Hcnt; cbn [foldl].
  - rewrite filter_all_true; [done|]. apply Forall_forall.
    intros y Hy%list_count_pos He. rewrite <- (Hcnt y He) in Hy. cbn in Hy. lia.
  - cbn [mbind option_bind]. case_decide as Hs.
    + assert (s ∈ cur) as Hin.
      { apply list_count_pos. rewrite <- (Hcnt s Hs), list_count_cons.
        rewrite decide_True by done. lia. }
      destruct (list_remove_spec s cur Hin) as (cur' & E & _ & Hc). rewrite E.
      rewrite IH.
      * f_equal. apply (list_remove_filter _ s); [done|]. by intros ?.
      * intros v Hv. specialize (Hcnt v Hv). rewrite list_count_cons, (Hc v) in Hcnt.
        destruct (decide (s = v)); lia.
    + apply IH. intros v Hv. specialize (Hcnt v Hv). rewrite list_count_cons in Hcnt.
      rewrite decide_False in Hcnt by (intros ->; done). lia.
Qed.

(** X15: the loop [for s in tuple(l): if s.cells == set(): l.remove(s)]
    never raises [ValueError] and leaves exactly the sentences of [l] that
    have cells, in their order. *)
Theorem remove_empty_is_filter (l : list Sentence) :
  remove_empty l = Some (filter (λ s, cells s ≠ ∅) l).
Proof. apply remove_empty_loop_filter. done. Qed.

Lemma NoDup_remove_dups_id (l : list Sentence) : NoDup l → remove_dups l = l.
Proof.
  induction 1 as [|x l Hx _ IH]; [done|]. cbn [remove_dups].
  destruct (decide_rel _ x l); [done|]. by rewrite IH.
Qed.

Lemma list_remove_dup (x : Sentence) (l l' : list Sentence) :
  list_remove x l = Some l' → (1 < list_count x l)%nat →
  remove_dups l' = remove_dups l.
Proof.
  revert l'. induction l as [|z l IH]; intros l' E Hc; [done|].
  cbn [list_remove] in E. rewrite list_count_cons in Hc.
  destruct (decide (x = z)) as [<-|Hz].
  - injection E as <-. rewrite decide_True in Hc by done.
    assert (x ∈ l) by (apply list_count_pos; lia).
    cbn [remove_dups]. by destruct (decide_rel _ x l).
  - rewrite decide_False in Hc by (intros ->; done).
    destruct (list_remove x l) as [l1|] eqn:E1; [|done]. injection E as <-.
    apply list_remove_Some_inv in E1 as E2. destruct E2 as [_ Hcnt].
    cbn [remove_dups]. rewrite (IH l1) by (done || lia).
    assert (z ∈ l1 ↔ z ∈ l) as Hiff.
    { rewrite <- !list_count_pos, (Hcnt z), decide_False by done. lia. }
    destruct (decide_rel _ z l1), (decide_rel _ z l); tauto.
Qed.

Lemma remove_duplicates_loop_dups (rest cur : list Sentence) :
  (∀ y, (list_count y cur ≤ 1 + list_count y rest)%nat) →
  foldl (λ acc s, cur ← acc;
                  if decide (1 < list_count s cur)%nat then list_remove s cur else Some cur)
        (Some cur) rest
  = Some (remove_dups cur).
Proof.
  revert cur. induction rest as [|s rest IH]; intros cur Hcnt; cbn [foldl].
  - rewrite NoDup_remove_dups_id; [done|]. apply NoDup_list_count.
    intros y. specialize (Hcnt y). cbn in Hcnt. lia.
  - cbn [mbind option_bind]. case_decide as Hs.
    + assert (s ∈ cur) as Hin by (apply list_count_pos; lia).
      destruct (list_remove_spec s cur Hin) as (cur' & E & _ & Hc). rewrite E.
      rewrite IH.
      * f_equal. by apply (list_remove_dup s cur).
      * intros y. specialize (Hcnt y). rewrite list_count_cons, (Hc y) in Hcnt.
        destruct (decide (s = y)); lia.
    + apply IH. intros y. specialize (Hcnt y). rewrite list_count_cons in Hcnt.
      destruct (decide (s = y)) as [<-|]; lia.
Qed.

(** X16: the loop [for s in tuple(l): if l.count(s) > 1: l.remove(s)]
    never raises [ValueError] and leaves one copy of every sentence of
    [l], the last one, in the order of [l]. *)
Theorem remove_duplicates_keeps_last (l : list Sentence) :
  remove_duplicates l = Some (remove_dups l) ∧
  NoDup (remove_dups l) ∧ ∀ s, s ∈ remove_dups l ↔ s ∈ l.
Proof.
  split; [|split].
  - apply remove_duplicates_loop_dups. intros y. lia.
  - apply NoDup_remove_dups.
  - intros s. apply elem_of_remove_dups.
Qed.

(** ** The pruned knowledge *)

Lemma add_knowledge_pruned_witness : pruned (knowledge game_a_second).
Proof.
  apply (add_knowledge_pruned 10 (1,2) 2 (init 2 3) game_a_second).
  - apply (bool_decide_unpack _). by vm_compute.
  - vm_compute. reflexivity.
Defined.


(** ** The count the board gives *)

(** X17: [nearby_mines(cell)] is the number of mines of the board among
    the cells of the board at Chebyshev distance 1 from [cell]; it lies
    between 0 and 8. *)
Theorem nearby_mines_counts (h w : Z) (B : gset Cell) (cell : Cell) :
  nearby_mines h w B cell
  = Z.of_nat (size (filter (λ c : Cell, ((0 <= c.1 ∧ c.1 < h) ∧ (0 <= c.2 ∧ c.2 < w))
                                         ∧ chebyshev c cell = 1) B)) ∧
  0 <= nearby_mines h w B cell <= 8.
Proof.
  unfold nearby_mines. rewrite nearby_fold, Z.add_0_l.
  set (P := λ c : Cell, c ≠ cell ∧ ((0 <= c.1 ∧ c.1 < h) ∧ (0 <= c.2 ∧ c.2 < w)) ∧ c ∈ B).
  split.
  - f_equal. rewrite <- (size_list_to_set (C:=gset Cell)).
    2:{ apply NoDup_filter, NoDup_fmap_2; [apply shift_inj | apply NoDup_offset_pairs]. }
    f_equal. apply set_eq. intros c.
    rewrite elem_of_list_to_set, list_elem_of_filter, elem_of_shifted, elem_of_filter.
    subst P. cbv beta.
    assert (0 <= chebyshev c cell) by (unfold chebyshev; lia).
    pose proof (chebyshev_zero c cell) as Hz.
    split.
    + intros ((Hne & Hb & HB) & Hle). split; [|done]. split; [done|].
      destruct (decide (chebyshev c cell = 0)) as [H0|]; [|lia].
      apply Hz in H0. done.
    + intros ((Hb & H1) & HB). split; [|lia]. split; [|done].
      intros ->. assert (chebyshev cell cell = 0) by (by apply chebyshev_zero). lia.
  - split; [lia|].
    assert (length (filter P (shift cell <$> offset_pairs)) ≤ 8)%nat; [|lia].
    assert (cell ∈ shift cell <$> offset_pairs) as Hin.
    { apply elem_of_shifted. assert (chebyshev cell cell = 0) by (by apply chebyshev_zero). lia. }
    pose proof (length_filter_lt P _ cell Hin) as Hlt.
    rewrite length_fmap in Hlt. change (length offset_pairs) with 9%nat in Hlt.
    assert (¬ P cell) as Hn by (subst P; cbv beta; tauto). specialize (Hlt Hn). lia.
Qed.

(** ** The seeded sentence on the board *)

(** X18: when the AI's [mines] are mines of the board, none of its
    [safes] is, and [cell] has no mine, the sentence that
    [add_knowledge(cell, nearby_mines(cell))] seeds is true on the board:
    its count is the number of mines among its cells.  It has at most 8
    cells. *)
Theorem seeded_sentence_true (B : gset Cell) (ai : MinesweeperAI) (cell : Cell) :
  mines ai ⊆ B → safes ai ## B → cell ∉ B →
  count (seed_sentence (record_move cell ai) cell
           (nearby_mines (height ai) (width ai) B cell))
  = Z.of_nat (size (cells (seed_sentence (record_move cell ai) cell
                             (nearby_mines (height ai) (width ai) B cell)) ∩ B)) ∧
  (size (cells (seed_sentence (record_move cell ai) cell
                  (nearby_mines (height ai) (width ai) B cell))) ≤ 8)%nat.
Proof.
  intros Hm Hs Hc. split.
  - destruct ai as [h w mv m sf K].
    assert (sound B (mkAI h w mv m sf [])) as Hsound by (split; [done|split; [done|constructor]]).
    pose proof (seed_sentence_holds B (record_move cell (mkAI h w mv m sf [])) cell
                  (sound_record_move B cell _ Hc Hsound) (record_move_safes cell _)) as H.
    exact H.
  - unfold seed_sentence. rewrite seed_fold. cbn [fst snd cells].
    replace (∅ ∪ list_to_set (filter (undetermined (record_move cell ai))
                                (shift cell <$> offset_pairs)))
      with (list_to_set (C:=gset Cell)
              (filter (undetermined (record_move cell ai)) (shift cell <$> offset_pairs)))
      by set_solver.
    rewrite size_list_to_set.
    2:{ apply NoDup_filter, NoDup_fmap_2; [apply shift_inj | apply NoDup_offset_pairs]. }
    assert (cell ∈ shift cell <$> offset_pairs) as Hin.
    { apply elem_of_shifted. assert (chebyshev cell cell = 0) by (by apply chebyshev_zero). lia. }
    pose proof (length_filter_lt (undetermined (record_move cell ai)) _ cell Hin) as Hlt.
    rewrite length_fmap in Hlt. change (length offset_pairs) with 9%nat in Hlt.
    assert (¬ undetermined (record_move cell ai) cell) as Hn.
    { unfold undetermined. intros (_ & Hns & _). apply Hns, record_move_safes. }
    specialize (Hlt Hn). lia.
Qed.

Lemma seeded_sentence_true_witness :
  count (seed_sentence (record_move (1,0) game_a_second) (1,0)
           (nearby_mines (height game_a_second) (width game_a_second) board_a (1,0)))
  = Z.of_nat (size (cells (seed_sentence (record_move (1,0) game_a_second) (1,0)
                             (nearby_mines (height game_a_second) (width game_a_second)
                                board_a (1,0))) ∩ board_a)) ∧
  (size (cells (seed_sentence (record_move (1,0)%Z game_a_second) (1,0)%Z
                  (nearby_mines (height game_a_second) (width game_a_second)
                     board_a (1,0)%Z))) ≤ 8)%nat.
Proof.
  apply (seeded_sentence_true board_a game_a_second (1,0)).
  - apply (bool_decide_unpack _). by vm_compute.
  - apply (bool_decide_unpack _). by vm_compute.
  - by vm_compute.
Defined.


(* ===================================================================== *)
(** * The game: class Minesweeper *)
(* ===================================================================== *)

(** ** The board built by __init__ *)

Lemma board_ok_empty (h w : Z) (mf : gset Cell) :
  Game.board_ok (Game.mk h w ∅ (replicate (Z.to_nat h) (replicate (Z.to_nat w) false)) mf).
Proof.
  unfold Game.board_ok. cbn. split; [by rewrite length_replicate|]. split; [|split].
  - apply Forall_forall. intros row [-> _]%elem_of_replicate. by rewrite length_replicate.
  - intros i j. split; [|set_solver].
    destruct (replicate (Z.to_nat h) _ !! i) as [row|] eqn:E; [|done]. cbn.
    apply lookup_replicate in E as [-> _].
    intros [? _]%lookup_replicate. done.
  - set_solver.
Qed.

(** Marking the square [(i, j)] of a board that did not have it. *)
Lemma board_ok_place (h w : Z) (M mf : gset Cell) (b : list (list bool))
    (i j : nat) (row : list bool) :
  Game.board_ok (Game.mk h w M b mf) →
  b !! i = Some row → (j < length row)%nat →
  Game.board_ok (Game.mk h w (M ∪ {[(Z.of_nat i, Z.of_nat j)]})
                   (alter (λ r, <[j := true]> r) i b) mf).
Proof.
  unfold Game.board_ok. cbn. intros (Hlen & Hrows & Hiff & Hin) Hi Hj.
  pose proof (lookup_lt_Some _ _ _ Hi) as Hilt.
  assert (length row = Z.to_nat w) as Hrow.
  { rewrite Forall_forall in Hrows. apply Hrows. by eapply list_elem_of_lookup_2. }
  split; [by rewrite length_alter|]. split; [|split].
  - apply Forall_forall. intros r (k & Hk)%list_elem_of_lookup_1.
    rewrite Forall_forall in Hrows. destruct (decide (k = i)) as [->|Hne].
    + rewrite list_lookup_alter_eq, Hi in Hk. simplify_eq/=.
      by rewrite length_insert.
    + rewrite list_lookup_alter_ne in Hk by done. apply Hrows.
      by eapply list_elem_of_lookup_2.
  - intros i' j'. rewrite elem_of_union, elem_of_singleton, <- Hiff.
    destruct (decide (i' = i)) as [->|Hne].
    + rewrite list_lookup_alter_eq, Hi. cbn.
      destruct (decide (j' = j)) as [->|Hne'].
      * rewrite list_lookup_insert_eq by done. tauto.
      * rewrite list_lookup_insert_ne by done. split; [tauto|].
        intros [?|Heq]; [done|]. apply (f_equal snd) in Heq. cbn in Heq. lia.
    + rewrite list_lookup_alter_ne by done. split; [tauto|].
      intros [?|Heq]; [done|]. apply (f_equal fst) in Heq. cbn in Heq. lia.
  - intros c [Hc| ->%elem_of_singleton]%elem_of_union; [by apply Hin|]. cbn. lia.
Qed.

Lemma place_mines_ok (h w n : Z) (draws : list (nat * nat)) (mf : gset Cell)
    (M M' : gset Cell) (b b' : list (list bool)) :
  Game.board_ok (Game.mk h w M b mf) →
  Game.place_mines h w n draws M b = Returned (M', b') →
  Game.board_ok (Game.mk h w M' b' mf) ∧ Z.of_nat (size M') = n.
Proof.
  revert M b. induction draws as [|[i j] draws IH]; intros M b Hok Hr;
    cbn [Game.place_mines] in Hr.
  - case_decide as Hn; [done|]. injection Hr as <- <-. split; [done|].
    destruct (decide (Z.of_nat (size M) = n)); [done|]. by destruct Hn.
  - case_decide as Hn.
    2:{ injection Hr as <- <-. split; [done|].
        destruct (decide (Z.of_nat (size M) = n)); [done|]. by destruct Hn. }
    case_decide; [done|].
    destruct (b !! i) as [row|] eqn:Hi; [|done].
    destruct (row !! j) as [[|]|] eqn:Hj; [by eapply IH| |done].
    eapply IH; [|exact Hr]. eapply board_ok_place; [done..|].
    by eapply lookup_lt_Some.
Qed.

(** X19: when [Minesweeper(height, width, mines)] returns, the game has
    the dimensions asked for, exactly [mines] mined cells, all of them on
    the board, a board of [height] rows of [width] squares that marks
    exactly the mined cells, and no mine found yet. *)
Theorem game_init_spec (h w n : Z) (draws : list (nat * nat)) (g : Game.t) :
  Game.init h w n draws = Returned g →
  Game.height g = h ∧ Game.width g = w ∧ Game.mines_found g = ∅ ∧
  Z.of_nat (size (Game.mines g)) = n ∧
  Game.board_ok g.
Proof.
  unfold Game.init.
  destruct (Game.place_mines _ _ _ _ _ _) as [[M b]| |] eqn:E; [|done..].
  cbn [obind fst snd]. intros [= <-]. cbn.
  destruct (place_mines_ok h w n draws ∅ ∅ M _ b (board_ok_empty h w ∅) E) as [Hok Hn].
  done.
Qed.

Lemma game_init_spec_witness :
  Game.height game_e = 2 ∧
  Game.width game_e = 2 ∧
  Game.mines_found game_e = ∅ ∧
  Z.of_nat (size (Game.mines game_e)) = 1 ∧
  Game.board_ok game_e.
Proof.
  apply (game_init_spec 2 2 1 [(1, 1)%nat]). vm_compute. reflexivity.
Defined.


(** ** Reading the board *)

Lemma game_e_ok : Game.board_ok game_e.
Proof.
  apply (place_mines_ok 2 2 1 [(1, 1)%nat] ∅ ∅ _ _ _ (board_ok_empty 2 2 ∅)).
  vm_compute. reflexivity.
Qed.

Lemma board_lookup (g : Game.t) (c : Cell) :
  Game.board_ok g →
  (0 <= c.1 ∧ c.1 < Game.height g) ∧ (0 <= c.2 ∧ c.2 < Game.width g) →
  (row ← Game.board g !! Z.to_nat c.1; row !! Z.to_nat c.2)
  = Some (bool_decide (c ∈ Game.mines g)).
Proof.
  intros (Hlen & Hrows & Hiff & _) [Hi Hj].
  destruct (lookup_lt_is_Some_2 (Game.board g) (Z.to_nat c.1)) as [row Hrow]; [lia|].
  assert (length row = Z.to_nat (Game.width g)) as Hl.
  { rewrite Forall_forall in Hrows. apply Hrows. by eapply list_elem_of_lookup_2. }
  destruct (lookup_lt_is_Some_2 row (Z.to_nat c.2)) as [v Hv]; [lia|].
  specialize (Hiff (Z.to_nat c.1) (Z.to_nat c.2)).
  rewrite Hrow in *. cbn in *. rewrite Hv in *.
  replace (Z.of_nat (Z.to_nat c.1), Z.of_nat (Z.to_nat c.2)) with c in Hiff
    by (destruct c; cbn in *; f_equal; lia).
  f_equal. destruct v.
  - symmetry. apply bool_decide_eq_true. by apply Hiff.
  - symmetry. apply bool_decide_eq_false. intros Hc. apply Hiff in Hc. done.
Qed.

Lemma is_mine_on_board (g : Game.t) (c : Cell) :
  Game.board_ok g →
  (0 <= c.1 ∧ c.1 < Game.height g) ∧ (0 <= c.2 ∧ c.2 < Game.width g) →
  Game.is_mine g c = Returned (bool_decide (c ∈ Game.mines g)).
Proof.
  intros Hok Hb. unfold Game.is_mine, Game.py_index.
  rewrite decide_True by lia.
  pose proof (board_lookup g c Hok Hb) as H.
  destruct (Game.board g !! Z.to_nat c.1) as [row|]; [|done]. cbn in *.
  rewrite decide_True by lia. by rewrite H.
Qed.

(** X20: on a game built by [__init__], [is_mine(cell)] for a cell of the
    board tells whether the cell is in [self.mines]; for a row index
    from [height] on, or below [-height], it raises [IndexError]. *)
Theorem is_mine_spec (g : Game.t) (c : Cell) :
  Game.board_ok g →
  ((0 <= c.1 ∧ c.1 < Game.height g) ∧ (0 <= c.2 ∧ c.2 < Game.width g) →
   Game.is_mine g c = Returned (bool_decide (c ∈ Game.mines g))) ∧
  (0 <= Game.height g → Game.height g <= c.1 ∨ c.1 < - Game.height g →
   Game.is_mine g c = Raised).
Proof.
  intros Hok. split.
  - by apply is_mine_on_board.
  - intros Hh Hc. destruct Hok as (Hlen & _). unfold Game.is_mine, Game.py_index.
    rewrite Hlen. destruct Hc as [Hc|Hc].
    + rewrite decide_True by lia.
      assert (Game.board g !! Z.to_nat c.1 = None) as -> by (apply lookup_ge_None; lia).
      done.
    + rewrite decide_False by lia. rewrite decide_False by lia. done.
Qed.

Lemma is_mine_spec_witness :
  ((0 <= ((1,1) : Cell).1 ∧ ((1,1) : Cell).1
      < Game.height game_e) ∧
   (0 <= ((1,1) : Cell).2 ∧ ((1,1) : Cell).2
      < Game.width game_e) →
   Game.is_mine game_e (1,1)
   = Returned (bool_decide ((1,1) ∈ Game.mines
         game_e))) ∧
  (0 <= Game.height game_e →
   Game.height game_e <= ((1,1) : Cell).1
   ∨ ((1,1) : Cell).1 < - Game.height game_e →
   Game.is_mine game_e (1,1) = Raised).
Proof.
  apply (is_mine_spec game_e (1,1)).
  apply game_e_ok.
Defined.

Lemma game_nearby_fold (g : Game.t) (cell : Cell) (l : list (Z * Z)) (n : Z) :
  Game.board_ok g →
  foldl (λ acc d,
           cnt ←← acc;
           let c : Cell := (cell.1 + d.1, cell.2 + d.2) in
           if decide (c = cell) then Returned cnt
           else if decide ((0 <= c.1 ∧ c.1 < Game.height g) ∧ (0 <= c.2 ∧ c.2 < Game.width g))
                then b ←← Game.is_mine g c; Returned (if b : bool then cnt + 1 else cnt)
                else Returned cnt)
        (Returned n) l
  = Returned
      (foldl (λ cnt d,
                let c : Cell := (cell.1 + d.1, cell.2 + d.2) in
                if decide (c = cell) then cnt
                else if decide ((0 <= c.1 ∧ c.1 < Game.height g)
                                ∧ (0 <= c.2 ∧ c.2 < Game.width g))
                     then (if decide (c ∈ Game.mines g) then cnt + 1 else cnt)
                     else cnt)
             n l).
Proof.
  intros Hok. revert n. induction l as [|d l IH]; intros n; [done|].
  cbn [foldl obind]. cbv zeta.
  destruct (decide ((cell.1 + d.1, cell.2 + d.2) = cell)); [apply IH|].
  destruct (decide ((0 <= (cell.1 + d.1, cell.2 + d.2).1
                     ∧ (cell.1 + d.1, cell.2 + d.2).1 < Game.height g)
                    ∧ (0 <= (cell.1 + d.1, cell.2 + d.2).2
                       ∧ (cell.1 + d.1, cell.2 + d.2).2 < Game.width g))) as [Hb|];
    [|apply IH].
  rewrite (is_mine_on_board g _ Hok Hb). cbn [obind].
  destruct (decide ((cell.1 + d.1, cell.2 + d.2) ∈ Game.mines g)).
  - rewrite bool_decide_eq_true_2 by done. apply IH.
  - rewrite bool_decide_eq_false_2 by done. apply IH.
Qed.

(** X21: on a game built by [__init__], [nearby_mines(cell)] raises no
    exception and returns the count computed from the set [self.mines],
    that is the number of mined cells of the board next to [cell]. *)
Theorem game_nearby_mines_spec (g : Game.t) (cell : Cell) :
  Game.board_ok g →
  Game.nearby_mines g cell
  = Returned (nearby_mines (Game.height g) (Game.width g) (Game.mines g) cell).
Proof. intros Hok. by apply game_nearby_fold. Qed.

Lemma game_nearby_mines_spec_witness :
  Game.nearby_mines game_e (0,0)
  = Returned (nearby_mines
                (Game.height game_e)
                (Game.width game_e)
                (Game.mines game_e)
                (0,0)).
Proof.
  apply (game_nearby_mines_spec game_e (0,0)).
  apply game_e_ok.
Defined.


(** ** When __init__ returns, raises, or goes on for ever *)

Lemma board_ok_lookup (h w : Z) (M mf : gset Cell) (b : list (list bool)) (i j : nat) :
  Game.board_ok (Game.mk h w M b mf) →
  Z.of_nat i < h → Z.of_nat j < w →
  ∃ row, b !! i = Some row ∧
         row !! j = Some (bool_decide ((Z.of_nat i, Z.of_nat j) ∈ M)) ∧
         (j < length row)%nat.
Proof.
  intros Hok Hi Hj.
  pose proof (board_lookup (Game.mk h w M b mf) (Z.of_nat i, Z.of_nat j) Hok) as H.
  cbn in H. rewrite !Nat2Z.id in H.
  assert ((0 <= Z.of_nat i ∧ Z.of_nat i < h) ∧ (0 <= Z.of_nat j ∧ Z.of_nat j < w)) as Hb by lia.
  specialize (H Hb).
  destruct (b !! i) as [row|]; [|done].
  exists row. split; [done|]. cbn in H. rewrite H. split; [done|].
  by eapply lookup_lt_Some.
Qed.

Lemma place_mines_never_raises (h w n : Z) (draws : list (nat * nat)) (mf : gset Cell)
    (M : gset Cell) (b : list (list bool)) :
  Game.board_ok (Game.mk h w M b mf) → 0 < h → 0 < w →
  Forall (λ d : nat * nat, Z.of_nat d.1 < h ∧ Z.of_nat d.2 < w) draws →
  Game.place_mines h w n draws M b ≠ Raised.
Proof.
  intros Hok Hh Hw Hd. revert M b Hok.
  induction Hd as [|[i j] draws [Hi Hj] _ IH]; intros M b Hok; cbn [Game.place_mines].
  - by case_decide.
  - case_decide; [|done]. destruct (decide (h <= 0 ∨ w <= 0)) as [?|_]; [lia|].
    cbn in Hi, Hj. destruct (board_ok_lookup h w M mf b i j Hok Hi Hj) as (row & Hrow & Hv & Hlt).
    rewrite Hrow, Hv. destruct (bool_decide _); [by apply IH|].
    apply IH. by eapply board_ok_place.
Qed.

(** X22: for a board with at least one row and one column and results of
    [randrange] within their ranges, [__init__] raises no exception,
    however many mines are asked for. *)
Theorem game_init_never_raises (h w n : Z) (draws : list (nat * nat)) :
  0 < h → 0 < w →
  Forall (λ d : nat * nat, Z.of_nat d.1 < h ∧ Z.of_nat d.2 < w) draws →
  Game.init h w n draws ≠ Raised.
Proof.
  intros Hh Hw Hd. unfold Game.init.
  pose proof (place_mines_never_raises h w n draws ∅ ∅ _ (board_ok_empty h w ∅) Hh Hw Hd).
  by destruct (Game.place_mines _ _ _ _ _ _).
Qed.

Lemma game_init_never_raises_witness : Game.init 2 2 3 [(1, 1)%nat; (0, 1)%nat] ≠ Raised.
Proof.
  apply (game_init_never_raises 2 2 3 [(1, 1)%nat; (0, 1)%nat]); [lia|lia|].
  repeat constructor; cbn; lia.
Defined.

(** X23: asked for no mine, [__init__] returns at once with an empty
    board of the dimensions given, whatever they are; asked for some mines
    on a board without rows or without columns, it raises (the
    [ValueError] of [random.randrange]). *)
Theorem game_init_edge_cases (h w n : Z) (d : nat * nat) (draws : list (nat * nat)) :
  Game.init h w 0 draws
  = Returned (Game.mk h w ∅ (replicate (Z.to_nat h) (replicate (Z.to_nat w) false)) ∅) ∧
  (h <= 0 ∨ w <= 0 → n ≠ 0 → Game.init h w n (d :: draws) = Raised).
Proof.
  split.
  - unfold Game.init. destruct draws as [|[i j] draws]; cbn [Game.place_mines];
      rewrite size_empty; rewrite decide_False by (intros H; by apply H); done.
  - intros Hhw Hn. unfold Game.init. destruct d as [i j]. cbn [Game.place_mines].
    rewrite size_empty. rewrite decide_True by (cbn; lia).
    by rewrite decide_True.
Qed.

Lemma size_list_to_set_le (l : list Cell) :
  (size (list_to_set l : gset Cell) ≤ length l)%nat.
Proof.
  induction l as [|x l IH]; cbn [list_to_set length]; [by rewrite size_empty|].
  rewrite size_union_alt, size_singleton.
  assert (size (list_to_set l ∖ {[x]} : gset Cell) ≤ size (list_to_set l : gset Cell))%nat
    by (apply subseteq_size; set_solver).
  lia.
Qed.

Lemma length_grid (l1 l2 : list Z) :
  length (i ← l1; j ← l2; [(i, j)]) = (length l1 * length l2)%nat.
Proof.
  induction l1 as [|x l1 IH]; [done|].
  rewrite bind_cons, length_app, IH. cbn [length Nat.mul]. f_equal.
  clear IH. induction l2 as [|y l2 IH2]; [done|].
  rewrite bind_cons, length_app, IH2. done.
Qed.

Lemma board_ok_size (g : Game.t) :
  Game.board_ok g →
  (size (Game.mines g) ≤ Z.to_nat (Game.height g) * Z.to_nat (Game.width g))%nat.
Proof.
  intros (_ & _ & _ & Hin).
  set (ai := init (Game.height g) (Game.width g)).
  set (grid := i ← py_range (height ai); j ← py_range (width ai); [(i, j)]).
  etrans; [apply (subseteq_size _ (list_to_set grid : gset Cell))|].
  - intros c Hc%Hin. apply elem_of_list_to_set. subst grid.
    apply elem_of_board_cells. unfold in_bounds. cbn. lia.
  - etrans; [apply size_list_to_set_le|]. subst grid. rewrite length_grid.
    unfold py_range. rewrite !length_fmap, !length_seq. done.
Qed.

(** X24: asked for a negative number of mines, or for more mines than
    the board has cells, [__init__] never returns, whatever the random
    generator gives. *)
Theorem game_init_too_many_mines (h w n : Z) (draws : list (nat * nat)) (g : Game.t) :
  n < 0 ∨ Z.of_nat (Z.to_nat h * Z.to_nat w) < n →
  Game.init h w n draws ≠ Returned g.
Proof.
  intros Hn Hr. unfold Game.init in Hr.
  destruct (Game.place_mines _ _ _ _ _ _) as [[M b]| |] eqn:E; [|done..].
  cbn [obind fst snd] in Hr. injection Hr as <-.
  destruct (place_mines_ok h w n draws ∅ ∅ M _ b (board_ok_empty h w ∅) E) as [Hok Hsz].
  apply board_ok_size in Hok. cbn in Hok. lia.
Qed.

Lemma game_init_too_many_mines_witness :
  Game.init 2 2 5 [(0, 0)%nat; (0, 1)%nat; (1, 0)%nat; (1, 1)%nat; (0, 0)%nat] ≠ Returned game_e.
Proof.
  apply (game_init_too_many_mines 2 2 5). right. cbn. lia.
Defined.


Lemma place_mines_distinct (h w : Z) (draws : list (nat * nat)) (mf : gset Cell)
    (M : gset Cell) (b : list (list bool)) :
  Game.board_ok (Game.mk h w M b mf) →
  NoDup draws →
  Forall (λ d : nat * nat, Z.of_nat d.1 < h ∧ Z.of_nat d.2 < w) draws →
  Forall (λ d : nat * nat, (Z.of_nat d.1, Z.of_nat d.2) ∉ M) draws →
  ∃ b', Game.place_mines h w (Z.of_nat (size M + length draws)) draws M b
        = Returned (M ∪ list_to_set ((λ d : nat * nat, (Z.of_nat d.1, Z.of_nat d.2)) <$> draws),
                    b').
Proof.
  intros Hok Hnd Hin. revert M b Hok.
  induction Hin as [|[i j] draws [Hi Hj] Hin IH]; intros M b Hok Hfresh;
    cbn [Game.place_mines].
  - rewrite decide_False by (cbn [length]; lia). exists b.
    rewrite fmap_nil. cbn [list_to_set]. by rewrite (right_id_L ∅ (∪)).
  - cbn in Hi, Hj. apply NoDup_cons in Hnd as [Hnew Hnd].
    apply Forall_cons in Hfresh as [Hc Hfresh]. cbn [fst snd] in Hc.
    rewrite decide_True by (cbn [length]; lia).
    destruct (decide (h <= 0 ∨ w <= 0)) as [?|_]; [lia|].
    destruct (board_ok_lookup h w M mf b i j Hok Hi Hj) as (row & Hrow & Hv & Hlt).
    rewrite Hrow, Hv, bool_decide_eq_false_2 by done.
    set (M1 := M ∪ {[(Z.of_nat i, Z.of_nat j)]}).
    assert (size M1 = S (size M)) as Hsz.
    { subst M1. rewrite (size_union M {[(Z.of_nat i, Z.of_nat j)]}) by set_solver.
      rewrite size_singleton. lia. }
    replace (size M + length ((i, j) :: draws))%nat with (size M1 + length draws)%nat
      by (cbn [length]; lia).
    destruct (IH Hnd M1 (alter (λ r, <[j := true]> r) i b)) as [b' Hb'].
    + by eapply board_ok_place.
    + apply Forall_forall. intros [i' j'] Hd. cbn [fst snd]. subst M1.
      rewrite Forall_forall in Hfresh. specialize (Hfresh _ Hd). cbn [fst snd] in Hfresh.
      rewrite elem_of_union, elem_of_singleton. intros [?|Heq]; [done|].
      apply Hnew. injection Heq as Hi' Hj'.
      apply Nat2Z.inj in Hi', Hj'. by subst.
    + exists b'. rewrite Hb'. f_equal. f_equal. rewrite fmap_cons. cbn [list_to_set fst snd].
      subst M1. by rewrite (assoc_L (∪)).
Qed.

(** X29: when the generator gives pairwise distinct squares of the
    board, one for each mine asked for, [__init__] returns, and the mines
    of the game are exactly the squares drawn. *)
Theorem game_init_distinct_draws (h w : Z) (draws : list (nat * nat)) :
  NoDup draws →
  Forall (λ d : nat * nat, Z.of_nat d.1 < h ∧ Z.of_nat d.2 < w) draws →
  ∃ g, Game.init h w (Z.of_nat (length draws)) draws = Returned g ∧
       Game.mines g
       = list_to_set ((λ d : nat * nat, (Z.of_nat d.1, Z.of_nat d.2)) <$> draws).
Proof.
  intros Hnd Hin. unfold Game.init.
  destruct (place_mines_distinct h w draws ∅ ∅ _ (board_ok_empty h w ∅) Hnd Hin)
    as [b' Hb'].
  { apply Forall_forall. intros d _. set_solver. }
  rewrite size_empty in Hb'. cbn [Nat.add] in Hb'. rewrite Hb'. cbn [obind fst snd].
  eexists. split; [reflexivity|]. cbn. by rewrite (left_id_L ∅ (∪)).
Qed.

Lemma game_init_distinct_draws_witness :
  ∃ g, Game.init 2 3 (Z.of_nat (length [(1, 1)%nat; (0, 2)%nat])) [(1, 1)%nat; (0, 2)%nat]
       = Returned g ∧
       Game.mines g
       = list_to_set ((λ d : nat * nat, (Z.of_nat d.1, Z.of_nat d.2))
                        <$> [(1, 1)%nat; (0, 2)%nat]).
Proof.
  apply (game_init_distinct_draws 2 3 [(1, 1)%nat; (0, 2)%nat]).
  - apply (bool_decide_unpack _). by vm_compute.
  - repeat constructor; cbn; lia.
Defined.

(** ** Examples for the lemmas on pruning and on the subset rule *)

Lemma add_knowledge_known_seed_witness :
  add_knowledge 1 (1,2) 2 game_a_second = Returned (record_move (1,2) game_a_second).
Proof.
  apply (add_knowledge_known_seed 0 (1,2) 2 game_a_second).
  apply list_elem_of_singleton. vm_compute. reflexivity.
Defined.

(** ** Marking a cell that is already marked *)

Lemma sent_mark_mine_fixed (c : Cell) (s : Sentence) :
  Sent.mark_mine c s = s ↔ c ∉ cells s.
Proof.
  unfold Sent.mark_mine. case_decide as Hc; split; try done.
  intros H. apply (f_equal count) in H. cbn in H. lia.
Qed.

Lemma sent_mark_safe_fixed (c : Cell) (s : Sentence) :
  Sent.mark_safe c s = s ↔ c ∉ cells s.
Proof.
  unfold Sent.mark_safe. case_decide as Hc; split; try done.
  intros H. apply (f_equal cells) in H. cbn in H. set_solver.
Qed.

Lemma fmap_fixed {A} (f : A → A) (l : list A) :
  f <$> l = l ↔ Forall (λ x, f x = x) l.
Proof.
  induction l as [|x l IH]; [done|]. rewrite fmap_cons, Forall_cons, <- IH.
  split; [by intros [= -> ->]|by intros [-> ->]].
Qed.

Lemma add_if_absent_present (c : Cell) (X : gset Cell) : c ∈ X → add_if_absent c X = X.
Proof. intros Hc. unfold add_if_absent. by rewrite decide_True. Qed.

(** X30: marking a cell that is already in [mines] with [mark_mine], or
    one that is already in [safes] with [mark_safe], leaves the state as
    it is exactly when no sentence of the knowledge contains the cell; in
    particular a second call right after the first changes nothing. *)
Theorem remarking_is_noop_iff (c : Cell) (ai : MinesweeperAI) :
  (c ∈ mines ai →
   (mark_mine c ai = ai ↔ Forall (λ s, c ∉ cells s) (knowledge ai))) ∧
  (c ∈ safes ai →
   (mark_safe c ai = ai ↔ Forall (λ s, c ∉ cells s) (knowledge ai))) ∧
  mark_mine c (mark_mine c ai) = mark_mine c ai ∧
  mark_safe c (mark_safe c ai) = mark_safe c ai.
Proof.
  split; [|split; [|apply mark_twice_same_as_once]].
  - intros Hc. unfold mark_mine. rewrite add_if_absent_present by done.
    rewrite <- (Forall_iff (λ s, Sent.mark_mine c s = s))
      by (intros s; apply sent_mark_mine_fixed).
    rewrite <- fmap_fixed. destruct ai as [h w mv M S K]. cbn. split.
    + by intros [= ->].
    + by intros ->.
  - intros Hc. unfold mark_safe. rewrite add_if_absent_present by done.
    rewrite <- (Forall_iff (λ s, Sent.mark_safe c s = s))
      by (intros s; apply sent_mark_safe_fixed).
    rewrite <- fmap_fixed. destruct ai as [h w mv M S K]. cbn. split.
    + by intros [= ->].
    + by intros ->.
Qed.
